(** * A shallow embedding of the JSON differ (main.go)

    The program decodes two JSON documents, asks the r3labs/diff library
    for the list of changes between them, turns that list into a map from
    dotted path to change class ([buildDiffMap]) and renders both documents
    as nested HTML lists in which every object member and array element is
    tagged with the class found at its dotted path ([renderJSON]).

    Go strings are byte strings: they are embedded as [string] (lists of
    [ascii]).  A Go [map[string]V] is embedded in two ways: the change index
    [DiffMap], which is only ever written and read by key, is a [gmap]; the
    JSON objects, whose iteration order is unspecified and over which the
    program ranges, are association lists whose list order stands for that
    unspecified order.  [float64] and its printing by the [%v] verb are
    taken as parameters. *)

From Stdlib Require Import ZArith Ascii String DecimalString DecimalNat Permutation Sorted.
From stdpp Require Import gmap strings list fin_maps sorting.

Open Scope Z_scope.

(** ** Go library functions used by the program *)

(** The double quote character, as a one-byte string. *)
Definition dq : string := String "034"%char EmptyString.

(** [strings.Join(elems, sep)]. *)
Fixpoint Join (elems : list string) (sep : string) : string :=
  match elems with
  | [] => ""
  | [e] => e
  | e :: rest => e +:+ sep +:+ Join rest sep
  end.

(** [fmt.Sprintf("%d", i)] for a slice index [i]. *)
Definition Sprintf_d (i : nat) : string :=
  NilEmpty.string_of_uint (Nat.to_uint i).

(** [fmt.Sprintf("%v", b)] for a [bool]. *)
Definition Sprintf_bool (b : bool) : string :=
  if b then "true" else "false".

Definition is_digit (c : ascii) : bool :=
  ((48 <=? nat_of_ascii c) && (nat_of_ascii c <=? 57))%nat.

Fixpoint parse_digits (s : string) (acc : Z) : option Z :=
  match s with
  | EmptyString => Some acc
  | String c s' =>
      if is_digit c
      then parse_digits s' (10 * acc + (Z.of_nat (nat_of_ascii c) - 48))
      else None
  end.

(** [strconv.Atoi]: an optional sign, then one or more decimal digits, the
    value within the 64-bit [int] range; [None] stands for a non-nil error. *)
Definition Atoi (s : string) : option Z :=
  let '(neg, body) :=
    match s with
    | String "-" r => (true, r)
    | String "+" r => (false, r)
    | _ => (false, s)
    end in
  match body with
  | EmptyString => None
  | _ =>
      match parse_digits body 0 with
      | Some n =>
          let v := if neg then - n else n in
          if (- 2 ^ 63 <=? v) && (v <=? 2 ^ 63 - 1) then Some v else None
      | None => None
      end
  end.

(** [strings.NewReplacer(oldnew...).Replace(s)] for one-byte old strings:
    every byte that has an entry is replaced by the new string of its first
    entry, every other byte is copied. *)
Fixpoint replacement (oldnew : list (ascii * string)) (c : ascii) : option string :=
  match oldnew with
  | [] => None
  | (old, new) :: rest =>
      if Ascii.eqb old c then Some new else replacement rest c
  end.

Fixpoint Replace (oldnew : list (ascii * string)) (s : string) : string :=
  match s with
  | EmptyString => EmptyString
  | String c s' =>
      match replacement oldnew c with
      | Some new => new +:+ Replace oldnew s'
      | None => String c (Replace oldnew s')
      end
  end.

(** [sort.Strings]: the strings in ascending bytewise lexicographic order. *)
Definition sort_Strings (l : list string) : list string :=
  merge_sort String.le l.

(** ** Data model *)

Inductive ChangeType := Added | Removed | Changed | Unchanged.

(** The string behind each [ChangeType] constant. *)
Definition ChangeType_string (ct : ChangeType) : string :=
  match ct with
  | Added => "added"
  | Removed => "removed"
  | Changed => "changed"
  | Unchanged => "unchanged"
  end.

(** [type DiffMap map[string]ChangeType] *)
Abbreviation DiffMap := (gmap string ChangeType).

(** The values [encoding/json] decodes into an [interface{}]: [nil], [bool],
    [float64], [string], [[]interface{}] and [map[string]interface{}]. *)
#[warnings="-register-all"]
Inductive JsonValue (float64 : Type) : Type :=
  | JNull
  | JBool (b : bool)
  | JNumber (f : float64)
  | JString (s : string)
  | JArray (l : list (JsonValue float64))
  | JObject (m : list (string * JsonValue float64)).

Arguments JNull {float64}.
Arguments JBool {float64} b.
Arguments JNumber {float64} f.
Arguments JString {float64} s.
Arguments JArray {float64} l.
Arguments JObject {float64} m.

(** [diff.Change] of r3labs/diff. *)
Record Change (float64 : Type) : Type := mkChange {
  Type_ : string;
  Path : list string;
  From : JsonValue float64;
  To : JsonValue float64
}.

Arguments mkChange {float64}.
Arguments Type_ {float64}.
Arguments Path {float64}.
Arguments From {float64}.
Arguments To {float64}.

(** Reading [m[k]] in a Go map held as an association list. *)
Fixpoint map_get {V : Type} (m : list (string * V)) (k : string) : option V :=
  match m with
  | [] => None
  | (k', v) :: m' => if String.eqb k' k then Some v else map_get m' k
  end.

(** The assignment [m[k] = v]. *)
Fixpoint map_set {V : Type} (m : list (string * V)) (k : string) (v : V)
  : list (string * V) :=
  match m with
  | [] => [(k, v)]
  | (k', v') :: m' =>
      if String.eqb k' k then (k, v) :: m' else (k', v') :: map_set m' k v
  end.

(** The keys in the order a [range] visits them. *)
Definition map_keys {V : Type} (m : list (string * V)) : list string :=
  map fst m.

(** ** The change index *)

Definition buildDiffMap {float64 : Type} (changes : list (Change float64)) : DiffMap :=
  fold_left
    (fun (m : DiffMap) (c : Change float64) =>
       let p := Join (Path c) "." in
       let ct :=
         if String.eqb (Type_ c) "create" then Added
         else if String.eqb (Type_ c) "delete" then Removed
         else if String.eqb (Type_ c) "update" then Changed
         else Unchanged in
       <[p := ct]> m)
    changes ∅.

Definition getChangeType (diffMap : DiffMap) (path : string) : string :=
  match diffMap !! path with
  | Some v => ChangeType_string v
  | None => ChangeType_string Unchanged
  end.

(** ** Paths *)

Definition pathKey (base key : string) : string :=
  if String.eqb base "" then key
  else
    match Atoi key with
    | Some _ => base +:+ "." +:+ key
    | None => base +:+ "." +:+ key
    end.

(** The key under which the renderer looks up the node reached from the
    root through [segs], the root rendered at the empty path: [renderJSON]
    extends its path by [pathKey] at every member or element it descends
    into. *)
Definition renderPath (segs : list string) : string :=
  fold_left pathKey segs "".

Definition escapeHTML (s : string) : string :=
  Replace
    [ ("&"%char, "&amp;");
      ("<"%char, "&lt;");
      (">"%char, "&gt;");
      ("034"%char, "&quot;");
      ("'"%char, "&#39;") ]
    s.

Definition sortedKeys {V : Type} (m : list (string * V)) : list string :=
  sort_Strings (map_keys m).

(** ** The renderer *)

Definition concat_strings (l : list string) : string :=
  foldr String.append "" l.

(** Nesting depth of a value; the recursive functions below are run with
    more fuel than this. *)
Fixpoint height {float64 : Type} (v : JsonValue float64) : nat :=
  match v with
  | JArray l => S (foldr (fun x n => Nat.max (height x) n) 0%nat l)
  | JObject m => S (foldr (fun e n => Nat.max (height (snd e)) n) 0%nat m)
  | _ => 0%nat
  end.

(** [fmt.Sprintf(`<li class="json-key %s">`, changeType)] *)
Definition li_open (changeType : string) : string :=
  "<li class=" +:+ dq +:+ "json-key " +:+ changeType +:+ dq +:+ ">".

(** [`<span class="key">"` + escapeHTML(k) + `"</span>: `] *)
Definition key_span (k : string) : string :=
  "<span class=" +:+ dq +:+ "key" +:+ dq +:+ ">" +:+ dq +:+ escapeHTML k
    +:+ dq +:+ "</span>: ".

Section Renderer.
Context {float64 : Type}.
(** [fmt.Sprintf("%v", f)] for a [float64]. *)
Variable Sprintf_v : float64 -> string.

(** [renderJSON], with the recursion depth bounded by [fuel].  The string
    builder is the concatenation of the pieces written to it, in order.
    A value decoded from JSON never reaches the [default] case of the type
    switch, which has no counterpart here. *)
Fixpoint renderJSON_fuel (fuel : nat) (v : JsonValue float64) (path : string)
    (diffMap : DiffMap) : string :=
  match fuel with
  | O => ""
  | S fuel' =>
      match v with
      | JObject val =>
          let keys := sortedKeys val in
          "<div class=" +:+ dq +:+ "json-object" +:+ dq +:+ ">{"
          +:+ "<ul class=" +:+ dq +:+ "json-list" +:+ dq +:+ ">"
          +:+ concat_strings
                (imap
                   (fun (i : nat) (k : string) =>
                      let vv := default JNull (map_get val k) in
                      let p := pathKey path k in
                      let changeType := getChangeType diffMap p in
                      li_open changeType
                      +:+ key_span k
                      +:+ renderJSON_fuel fuel' vv p diffMap
                      +:+ (if (i <? length keys - 1)%nat then "," else "")
                      +:+ "</li>")
                   keys)
          +:+ "</ul>}"
          +:+ "</div>"
      | JArray val =>
          "<div class=" +:+ dq +:+ "json-array" +:+ dq +:+ ">["
          +:+ "<ul class=" +:+ dq +:+ "json-list" +:+ dq +:+ ">"
          +:+ concat_strings
                (imap
                   (fun (i : nat) (vv : JsonValue float64) =>
                      let p := pathKey path (Sprintf_d i) in
                      let changeType := getChangeType diffMap p in
                      li_open changeType
                      +:+ renderJSON_fuel fuel' vv p diffMap
                      +:+ (if (i <? length val - 1)%nat then "," else "")
                      +:+ "</li>")
                   val)
          +:+ "</ul>]"
          +:+ "</div>"
      | JString val =>
          "<span class=" +:+ dq +:+ "json-string" +:+ dq +:+ ">" +:+ dq
          +:+ escapeHTML val +:+ dq +:+ "</span>"
      | JNumber val =>
          "<span class=" +:+ dq +:+ "json-number" +:+ dq +:+ ">"
          +:+ Sprintf_v val +:+ "</span>"
      | JBool val =>
          "<span class=" +:+ dq +:+ "json-bool" +:+ dq +:+ ">"
          +:+ Sprintf_bool val +:+ "</span>"
      | JNull =>
          "<span class=" +:+ dq +:+ "json-null" +:+ dq +:+ ">null</span>"
      end
  end.

Definition renderJSON (v : JsonValue float64) (path : string)
    (diffMap : DiffMap) : string :=
  renderJSON_fuel (S (height v)) v path diffMap.
End Renderer.

(** ** Key sorting of a document *)

(** [sortJSON], with the recursion depth bounded by [fuel].  The object case
    fills a fresh map; the array case overwrites the slice element by
    element, each element read just before it is overwritten. *)
Fixpoint sortJSON_fuel {float64 : Type} (fuel : nat) (v : JsonValue float64)
  : JsonValue float64 :=
  match fuel with
  | O => v
  | S fuel' =>
      match v with
      | JObject val =>
          let keys := sortedKeys val in
          JObject
            (fold_left
               (fun sorted k =>
                  map_set sorted k
                    (sortJSON_fuel fuel' (default JNull (map_get val k))))
               keys [])
      | JArray val =>
          JArray
            (fold_left
               (fun (val : list (JsonValue float64)) (i : nat) =>
                  <[i := sortJSON_fuel fuel' (default JNull (val !! i))]> val)
               (seq 0 (length val)) val)
      | _ => v
      end
  end.

Definition sortJSON {float64 : Type} (v : JsonValue float64) : JsonValue float64 :=
  sortJSON_fuel (S (height v)) v.

(** The [%v] rendering of an integral [float64] of magnitude below one
    million, the number given as that integer: the decimal digits, with a
    sign.  It instantiates the printing of numbers in the examples. *)
Definition Sprintf_v_int (z : Z) : string :=
  if z <? 0 then "-" +:+ Sprintf_d (Z.to_nat (- z)) else Sprintf_d (Z.to_nat z).

(** ** Definitions used in the statements *)

(** The class [buildDiffMap]'s switch gives to a library type string. *)
Definition classOf (ty : string) : ChangeType :=
  if String.eqb ty "create" then Added
  else if String.eqb ty "delete" then Removed
  else if String.eqb ty "update" then Changed
  else Unchanged.

(** Two changes at different locations with the same dotted path, as
    between the documents [{"a.b":1,"a":{}}] and [{"a":{"b":1}}]. *)
Definition colliding_changes : list (Change Z) :=
  [ mkChange "create" ["a"; "b"] JNull (JNumber 1);
    mkChange "delete" ["a.b"] (JNumber 1) JNull ].

(** A change of a type the switch does not know, followed by a creation at
    the same path. *)
Definition overwritten_changes : list (Change Z) :=
  [ mkChange "move" ["a"] JNull JNull;
    mkChange "create" ["a"] JNull (JBool true) ].

(** What [escapeHTML] writes for one byte. *)
Definition escape_byte (c : ascii) : string :=
  match replacement
          [ ("&"%char, "&amp;"); ("<"%char, "&lt;"); (">"%char, "&gt;");
            ("034"%char, "&quot;"); ("'"%char, "&#39;") ] c with
  | Some new => new
  | None => String c EmptyString
  end.


(** The text [needle] occurs somewhere in [s]. *)
Fixpoint occurs (needle s : string) : bool :=
  String.prefix needle s
  || match s with
     | EmptyString => false
     | String _ s' => occurs needle s'
     end.

(** The pieces [renderJSON] writes around the items of an object and of an
    array. *)
Definition object_head : string :=
  "<div class=" +:+ dq +:+ "json-object" +:+ dq +:+ ">{"
  +:+ "<ul class=" +:+ dq +:+ "json-list" +:+ dq +:+ ">".

Definition array_head : string :=
  "<div class=" +:+ dq +:+ "json-array" +:+ dq +:+ ">["
  +:+ "<ul class=" +:+ dq +:+ "json-list" +:+ dq +:+ ">".

Section Items.
Context {float64 : Type}.
Variable Sprintf_v : float64 -> string.

(** What one round of the loop over the keys of an object writes: [n] is
    the number of keys, [i] the position of [k] among them. *)
Definition member_item (val : list (string * JsonValue float64))
    (path : string) (diffMap : DiffMap) (n i : nat) (k : string) : string :=
  li_open (getChangeType diffMap (pathKey path k))
  +:+ key_span k
  +:+ renderJSON Sprintf_v (default JNull (map_get val k)) (pathKey path k) diffMap
  +:+ (if (i <? n - 1)%nat then "," else "")
  +:+ "</li>".

(** What one round of the loop over the elements of an array writes. *)
Definition element_item (path : string) (diffMap : DiffMap) (n i : nat)
    (vv : JsonValue float64) : string :=
  li_open (getChangeType diffMap (pathKey path (Sprintf_d i)))
  +:+ renderJSON Sprintf_v vv (pathKey path (Sprintf_d i)) diffMap
  +:+ (if (i <? n - 1)%nat then "," else "")
  +:+ "</li>".
End Items.

(** [reach v segs n]: the node [n] is found in [v] by following the
    segments [segs], an object key or the decimal digits of an array index
    at each step. *)
Inductive reach {float64 : Type}
  : JsonValue float64 -> list string -> JsonValue float64 -> Prop :=
  | reach_here v : reach v [] v
  | reach_member m k c segs n :
      map_get m k = Some c -> reach c segs n -> reach (JObject m) (k :: segs) n
  | reach_element l i c segs n :
      l !! i = Some c -> reach c segs n ->
      reach (JArray l) (Sprintf_d i :: segs) n.

(** The invariant of a Go map, for the association lists that stand for
    one: no key twice, at every object of the value. *)
Fixpoint unique_keys {float64 : Type} (v : JsonValue float64) : bool :=
  match v with
  | JArray l => forallb unique_keys l
  | JObject m =>
      bool_decide (NoDup (map_keys m))
      && forallb (fun e => unique_keys (snd e)) m
  | _ => true
  end.

(** Two values denote the same JSON value: equal scalars, arrays of the
    same length with the same elements position by position, objects with
    the same keys and the same value under each key. *)
#[warnings="-register-all"]
Inductive same_json {float64 : Type}
  : JsonValue float64 -> JsonValue float64 -> Prop :=
  | same_null : same_json JNull JNull
  | same_bool b : same_json (JBool b) (JBool b)
  | same_number f : same_json (JNumber f) (JNumber f)
  | same_string s : same_json (JString s) (JString s)
  | same_array l1 l2 :
      Forall2 same_json l1 l2 -> same_json (JArray l1) (JArray l2)
  | same_object m1 m2 :
      (forall k, option_Forall2 same_json (map_get m1 k) (map_get m2 k)) ->
      same_json (JObject m1) (JObject m2).

(** The text [u] is a contiguous part of [s]. *)
Definition within (u s : string) : Prop :=
  exists pre post : string, s = pre +:+ u +:+ post.

(** The index for two documents whose roots are different scalars: one
    update, at the empty path. *)
Definition root_update : list (Change Z) :=
  [ mkChange "update" [] (JString "x") (JString "y") ].

(** One document listed in two orders of its object entries. *)
Definition listing_one : JsonValue Z :=
  JObject [ ("b", JNumber 1);
            ("a", JArray [JObject [("y", JNull); ("x", JBool true)]; JString "s"]) ].

Definition listing_two : JsonValue Z :=
  JObject [ ("a", JArray [JObject [("x", JBool true); ("y", JNull)]; JString "s"]);
            ("b", JNumber 1) ].

(** ** The diff engine *)

(** [f i x] for every element [x] of a list, [i] its position counted from
    [start]. *)
Section MapFrom.
Context {A B : Type}.
Variable f : nat -> A -> B.

Fixpoint map_from (start : nat) (l : list A) : list B :=
  match l with
  | [] => []
  | x :: l' => f start x :: map_from (S start) l'
  end.
End MapFrom.

Section DiffEngine.
Context {float64 : Type} `{EqDecision float64}.

(** Modelled from the spec: the Diff Engine.  The program takes its change
    list from [diff.Diff] of the r3labs/diff library, whose code is not
    among the sources; this is the algorithm the specification gives
    (section 4.1).  Two objects: an Added record for every key of [b]
    missing from [a], a Removed record for every key of [a] missing from
    [b], the comparison of the two values for every common key, keys in
    sorted order.  Two arrays: the comparison position by position, then
    an Added or a Removed record for every extra position of the longer
    one.  Two equal scalars of the same type: nothing.  Anything else: one
    Changed record at the path, with no descent.  The kinds Added, Removed
    and Changed are written as the type strings create, delete and update
    that [buildDiffMap] reads, an absent [from] or [to] as [nil]. *)
Fixpoint diff_at (path : list string) (a b : JsonValue float64) {struct a}
  : list (Change float64) :=
  match a, b with
  | JObject ma, JObject mb =>
      let keysA := sortedKeys ma in
      let keysB := sortedKeys mb in
      let below :=
        map (fun e => (fst e, diff_at (path ++ [fst e]) (snd e))) ma in
      flat_map
        (fun k => [mkChange "create" (path ++ [k]) JNull
                     (default JNull (map_get mb k))])
        (filter (fun k => k ∉ keysA) keysB)
      ++ flat_map
           (fun k => [mkChange "delete" (path ++ [k])
                        (default JNull (map_get ma k)) JNull])
           (filter (fun k => k ∉ keysB) keysA)
      ++ flat_map
           (fun k =>
              match map_get below k, map_get mb k with
              | Some below_k, Some vb => below_k vb
              | _, _ => []
              end)
           (filter (fun k => k ∈ keysB) keysA)
  | JArray la, JArray lb =>
      concat
        (map_from
           (fun i x =>
              match lb !! i with
              | Some y => diff_at (path ++ [Sprintf_d i]) x y
              | None => []
              end)
           0%nat la)
      ++ imap
           (fun i y =>
              mkChange "create" (path ++ [Sprintf_d (length la + i)]) JNull y)
           (drop (length la) lb)
      ++ imap
           (fun i x =>
              mkChange "delete" (path ++ [Sprintf_d (length lb + i)]) x JNull)
           (drop (length lb) la)
  | JNull, JNull => []
  | JBool x, JBool y =>
      if bool_decide (x = y) then [] else [mkChange "update" path a b]
  | JNumber x, JNumber y =>
      if bool_decide (x = y) then [] else [mkChange "update" path a b]
  | JString x, JString y =>
      if bool_decide (x = y) then [] else [mkChange "update" path a b]
  | _, _ => [mkChange "update" path a b]
  end.

(** The root call starts with the empty path. *)
Definition diff (a b : JsonValue float64) : list (Change float64) :=
  diff_at [] a b.
End DiffEngine.

(** ** The table of differences *)

(** [type DiffResult struct { Path, Type, From, To string }]; the fields
    carry a prefix here, the bare names being those of [Change]. *)
Record DiffResult : Type := mkDiffResult {
  ResultPath : string;
  ResultType : string;
  ResultFrom : string;
  ResultTo : string
}.

Section DiffTable.
Context {float64 : Type}.
(** [fmt.Sprintf("%v", x)] for the value held by a [From] or [To] field. *)
Variable Sprintf_v_value : JsonValue float64 -> string.

(** [buildDiffTable]: one row appended per change, in the order of the
    changes. *)
Definition buildDiffTable (changes : list (Change float64)) : list DiffResult :=
  fold_left
    (fun (results : list DiffResult) (c : Change float64) =>
       results
       ++ [ {| ResultPath := Join (Path c) ".";
               ResultType := Type_ c;
               ResultFrom := Sprintf_v_value (From c);
               ResultTo := Sprintf_v_value (To c) |} ])
    changes [].
End DiffTable.

(** The segments that remain once the leading empty ones are dropped. *)
Fixpoint drop_empty (segs : list string) : list string :=
  match segs with
  | [] => []
  | s :: rest => if String.eqb s "" then drop_empty rest else segs
  end.

(** A byte that [escapeHTML] replaces. *)
Definition special (c : ascii) : bool :=
  match replacement
          [ ("&"%char, "&amp;"); ("<"%char, "&lt;"); (">"%char, "&gt;");
            ("034"%char, "&quot;"); ("'"%char, "&#39;") ] c with
  | Some _ => true
  | None => false
  end.

(** The number of bytes of a string that [escapeHTML] replaces. *)
Fixpoint count_special (s : string) : nat :=
  match s with
  | EmptyString => 0%nat
  | String c s' => ((if special c then 1 else 0) + count_special s')%nat
  end.

(** An index with one entry that is the path of no node of the document
    [{"k":1}], and that document. *)
Definition unrelated_index : DiffMap := {[ "zzz" := Added ]}.

Definition one_member : JsonValue Z := JObject [("k", JNumber 1)].

#[global] Instance ChangeType_eq_dec : EqDecision ChangeType.
Proof. solve_decision. Defined.

(** One update below a member, and the document it was found in. *)
Definition nested_update : list (Change Z) :=
  [ mkChange "update" ["a"; "b"] (JNumber 1) (JNumber 2) ].

Definition nested_document : JsonValue Z :=
  JObject [("a", JObject [("b", JNumber 1)])].

(** One deletion of an array element, and the document it was found in. *)
Definition element_removal : list (Change Z) :=
  [ mkChange "delete" ["xs"; "1"] (JNumber 7) JNull ].

Definition array_document : JsonValue Z :=
  JObject [("xs", JArray [JNumber 5; JNumber 7])].


(** A document with a member under the empty key, and an update recorded
    below that member. *)
Definition empty_key_document : JsonValue Z :=
  JObject [("", JObject [("a", JNumber 1)])].

Definition empty_key_update : list (Change Z) :=
  [ mkChange "update" [""; "a"] (JNumber 1) (JNumber 2) ].
(** * Properties *)

#[local] Arguments String.append !s1 s2 : simpl nomatch.

(** ** The change index *)

Lemma buildDiffMap_nil {float64 : Type} :
  buildDiffMap (@nil (Change float64)) = ∅.
Proof. reflexivity. Qed.

(** One more round of the loop. *)
Lemma buildDiffMap_snoc {float64 : Type} (cs : list (Change float64)) c :
  buildDiffMap (cs ++ [c])
  = <[Join (Path c) "." := classOf (Type_ c)]> (buildDiffMap cs).
Proof. unfold buildDiffMap. rewrite fold_left_app. reflexivity. Qed.

(** The keys of the index are the dotted paths of the changes. *)
Lemma buildDiffMap_keys {float64 : Type} (cs : list (Change float64)) p :
  is_Some (buildDiffMap cs !! p) <-> exists c, c ∈ cs /\ Join (Path c) "." = p.
Proof.
  induction cs as [|c cs IH] using rev_ind.
  - rewrite buildDiffMap_nil, lookup_empty. split.
    + intros [? ?]; discriminate.
    + intros (c & Hc & _). inversion Hc.
  - rewrite buildDiffMap_snoc. rewrite lookup_insert_is_Some, IH. split.
    + intros [<- | [_ (c' & Hin & Hp)]].
      * exists c. split; [apply elem_of_app; right; apply list_elem_of_singleton |]; reflexivity.
      * exists c'. split; [apply elem_of_app; left |]; assumption.
    + intros (c' & Hin & Hp).
      destruct (decide (Join (Path c) "." = p)) as [Heq | Hne]; [left; assumption |].
      right. split; [assumption |].
      apply elem_of_app in Hin as [Hin | Hin]; [eauto |].
      apply list_elem_of_singleton in Hin. subst c'. contradiction.
Qed.

(** The value kept at a path is the class of the last change with that path. *)
Lemma buildDiffMap_last_write {float64 : Type} (changes : list (Change float64)) i c :
  changes !! i = Some c ->
  (forall j c', (i < j)%nat -> changes !! j = Some c' ->
                Join (Path c') "." <> Join (Path c) ".") ->
  buildDiffMap changes !! Join (Path c) "." = Some (classOf (Type_ c)).
Proof.
  revert i c. induction changes as [|c0 cs IH] using rev_ind; intros i c Hi Hlater.
  - rewrite lookup_nil in Hi. discriminate.
  - rewrite buildDiffMap_snoc.
    destruct (decide (i < length cs)%nat) as [Hlt | Hge].
    + rewrite lookup_app_l in Hi by assumption.
      rewrite lookup_insert_ne.
      * apply (IH i c Hi). intros j c' Hij Hj. apply (Hlater j c' Hij).
        rewrite lookup_app_l; [assumption |]. by apply lookup_lt_Some in Hj.
      * apply (Hlater (length cs) c0 Hlt).
        rewrite lookup_app_r by lia. by rewrite Nat.sub_diag.
    + pose proof (lookup_lt_Some _ _ _ Hi) as Hb. rewrite length_app in Hb. simpl in Hb.
      assert (i = length cs) as -> by lia.
      rewrite lookup_app_r in Hi by lia. rewrite Nat.sub_diag in Hi.
      injection Hi as ->. apply lookup_insert_eq.
Qed.

Lemma classOf_unknown ty :
  ty <> "create" -> ty <> "delete" -> ty <> "update" -> classOf ty = Unchanged.
Proof.
  intros H1 H2 H3. unfold classOf.
  apply String.eqb_neq in H1, H2, H3. by rewrite H1, H2, H3.
Qed.

(** C1, as stated, fails: the first of [colliding_changes] is a creation,
    yet the index built from the list answers "removed" at its dotted path,
    because the later deletion has the same dotted path. *)
Lemma index_fidelity_fails_on_shared_path :
  ~ (forall c : Change Z, c ∈ colliding_changes -> Type_ c = "create" ->
       getChangeType (buildDiffMap colliding_changes) (Join (Path c) ".")
       = "added").
Proof.
  intros H.
  specialize (H (mkChange "create" ["a"; "b"] JNull (JNumber 1))).
  assert (Hin : mkChange "create" ["a"; "b"] JNull (JNumber 1) ∈ colliding_changes)
    by (unfold colliding_changes; set_solver).
  specialize (H Hin eq_refl). vm_compute in H. discriminate.
Qed.

(** C1 (amended): index fidelity.  For every change of the sequence given to
    [buildDiffMap] that no later change of the sequence shares its dotted
    path with, the lookup at that dotted path answers the change's kind:
    "added" for create, "removed" for delete, "changed" for update. *)
Theorem buildDiffMap_index_fidelity {float64 : Type}
    (changes : list (Change float64)) (i : nat) (c : Change float64) :
  changes !! i = Some c ->
  (forall j c', (i < j)%nat -> changes !! j = Some c' ->
                Join (Path c') "." <> Join (Path c) ".") ->
  (Type_ c = "create" ->
   getChangeType (buildDiffMap changes) (Join (Path c) ".") = "added")
  /\ (Type_ c = "delete" ->
      getChangeType (buildDiffMap changes) (Join (Path c) ".") = "removed")
  /\ (Type_ c = "update" ->
      getChangeType (buildDiffMap changes) (Join (Path c) ".") = "changed").
Proof.
  intros Hi Hlater. unfold getChangeType.
  rewrite (buildDiffMap_last_write changes i c Hi Hlater).
  repeat split; intros ->; reflexivity.
Qed.

Lemma buildDiffMap_index_fidelity_witness :
  getChangeType (buildDiffMap colliding_changes) "a.b" = "removed".
Proof.
  pose proof (buildDiffMap_index_fidelity colliding_changes 1
                (mkChange "delete" ["a.b"] (JNumber 1) JNull) eq_refl) as H.
  apply H; [| reflexivity].
  intros j c' Hj Hc'. destruct j as [|[|j]]; [lia | lia | discriminate].
Defined.

(** C3: default lookup.  At a path that is not a key of the index built by
    [buildDiffMap], [getChangeType] answers "unchanged". *)
Theorem getChangeType_default {float64 : Type}
    (changes : list (Change float64)) (path : string) :
  buildDiffMap changes !! path = None ->
  getChangeType (buildDiffMap changes) path = "unchanged".
Proof. intros H. unfold getChangeType. rewrite H. reflexivity. Qed.

Lemma getChangeType_default_witness :
  getChangeType (buildDiffMap colliding_changes) "a" = "unchanged".
Proof.
  apply (getChangeType_default colliding_changes "a"). vm_compute. reflexivity.
Defined.

(** The same for a path that is the dotted path of none of the changes. *)
Lemma getChangeType_default_not_listed {float64 : Type}
    (changes : list (Change float64)) (path : string) :
  (forall c, c ∈ changes -> Join (Path c) "." <> path) ->
  getChangeType (buildDiffMap changes) path = "unchanged".
Proof.
  intros H. unfold getChangeType.
  assert (buildDiffMap changes !! path = None) as ->; [| reflexivity].
  apply eq_None_not_Some.
  rewrite buildDiffMap_keys. intros (c & Hin & Hp). exact (H c Hin Hp).
Qed.

(** C8, as stated, fails: the first of [overwritten_changes] has the unknown
    type "move", but the lookup at its path answers "added", the class of
    the later creation at that path. *)
Lemma unknown_type_lookup_overwritten :
  ~ (forall c : Change Z, c ∈ overwritten_changes ->
       Type_ c <> "create" -> Type_ c <> "delete" -> Type_ c <> "update" ->
       getChangeType (buildDiffMap overwritten_changes) (Join (Path c) ".")
       = "unchanged").
Proof.
  intros H.
  specialize (H (mkChange "move" ["a"] JNull JNull)).
  assert (Hin : mkChange "move" ["a"] JNull JNull ∈ overwritten_changes)
    by (unfold overwritten_changes; set_solver).
  specialize (H Hin). simpl in H.
  assert (Hadded : getChangeType (buildDiffMap overwritten_changes) "a" = "added")
    by (vm_compute; reflexivity).
  rewrite Hadded in H.
  discriminate H; intros E; discriminate E.
Qed.

(** C8 (amended): a change whose type is none of create, delete, update, and
    whose dotted path no later change of the sequence shares, is a key of
    the index with the value [Unchanged]; the lookup at its path answers
    "unchanged", as it does in any index that lacks the key. *)
Theorem buildDiffMap_unknown_type {float64 : Type}
    (changes : list (Change float64)) (i : nat) (c : Change float64) :
  changes !! i = Some c ->
  Type_ c <> "create" -> Type_ c <> "delete" -> Type_ c <> "update" ->
  (forall j c', (i < j)%nat -> changes !! j = Some c' ->
                Join (Path c') "." <> Join (Path c) ".") ->
  buildDiffMap changes !! Join (Path c) "." = Some Unchanged
  /\ getChangeType (buildDiffMap changes) (Join (Path c) ".") = "unchanged"
  /\ (forall other : DiffMap, other !! Join (Path c) "." = None ->
        getChangeType other (Join (Path c) ".")
        = getChangeType (buildDiffMap changes) (Join (Path c) ".")).
Proof.
  intros Hi H1 H2 H3 Hlater.
  pose proof (buildDiffMap_last_write changes i c Hi Hlater) as Hl.
  rewrite (classOf_unknown _ H1 H2 H3) in Hl.
  unfold getChangeType. rewrite Hl. split; [reflexivity |]. split; [reflexivity |].
  intros other ->. reflexivity.
Qed.

Lemma buildDiffMap_unknown_type_witness :
  buildDiffMap [mkChange "move" ["a"] (@JNull Z) JNull] !! "a" = Some Unchanged.
Proof.
  refine (proj1 (buildDiffMap_unknown_type
                   [mkChange "move" ["a"] (@JNull Z) JNull] 0
                   (mkChange "move" ["a"] JNull JNull) eq_refl _ _ _ _));
    try discriminate.
  intros j c' Hj Hc'. destruct j; [lia | discriminate].
Defined.

(** ** Paths *)

Lemma pathKey_unfold (base key : string) :
  pathKey base key = if decide (base = "") then key else base +:+ "." +:+ key.
Proof.
  unfold pathKey. destruct (String.eqb_spec base "") as [-> | Hne].
  - reflexivity.
  - rewrite decide_False by assumption. destruct (Atoi key); reflexivity.
Qed.

(** C5: canonical path form.  [pathKey] answers the segment when the base is
    empty and base, dot, segment otherwise, whatever the segment looks
    like; the array index 2 and the object key "2" give the same path. *)
Theorem pathKey_canonical_form :
  (forall base key : string,
      pathKey base key = if decide (base = "") then key else base +:+ "." +:+ key)
  /\ Sprintf_d 2 = "2"
  /\ (forall base : string, pathKey base (Sprintf_d 2) = pathKey base "2").
Proof.
  split; [exact pathKey_unfold | split; [reflexivity | intros base; reflexivity]].
Qed.

Lemma pathKey_nonempty base key : base <> "" -> pathKey base key <> "".
Proof.
  intros Hne. rewrite pathKey_unfold.
  rewrite decide_False by assumption.
  destruct base; [contradiction | discriminate].
Qed.

Lemma string_app_assoc (a b c : string) : (a +:+ b) +:+ c = a +:+ b +:+ c.
Proof. induction a as [|x a IH]; simpl; [reflexivity | by rewrite IH]. Qed.

Lemma string_app_empty_r (a : string) : a +:+ "" = a.
Proof. induction a as [|x a IH]; simpl; [reflexivity | by rewrite IH]. Qed.

(** From a non-empty base the renderer appends a dot and the segment at
    every step. *)
Lemma fold_pathKey_nonempty segs : forall base,
  base <> "" ->
  fold_left pathKey segs base
  = base +:+ concat_strings (map (String.append ".") segs).
Proof.
  induction segs as [|s segs IH]; intros base Hne; simpl.
  - by rewrite string_app_empty_r.
  - rewrite IH by (by apply pathKey_nonempty).
    rewrite pathKey_unfold.
    rewrite decide_False by assumption.
    by rewrite !string_app_assoc.
Qed.

Lemma Join_cons s segs :
  Join (s :: segs) "." = s +:+ concat_strings (map (String.append ".") segs).
Proof.
  revert s. induction segs as [|t segs IH]; intros s.
  - simpl. by rewrite string_app_empty_r.
  - change (Join (s :: t :: segs) ".") with (s +:+ "." +:+ Join (t :: segs) ".").
    rewrite IH. reflexivity.
Qed.

(** Where the first segment is not the empty key, the renderer's path is
    the joined path of the diff side. *)
Lemma renderPath_Join segs :
  head segs <> Some "" -> renderPath segs = Join segs ".".
Proof.
  destruct segs as [|s segs]; [reflexivity |]. intros Hs.
  assert (s <> "") by (intros ->; by apply Hs).
  rewrite Join_cons. unfold renderPath.
  change (fold_left pathKey (s :: segs) "") with (fold_left pathKey segs s).
  by apply fold_pathKey_nonempty.
Qed.

(** A leading empty key leaves no trace in the renderer's path. *)
Lemma renderPath_skips_empty segs : renderPath ("" :: segs) = renderPath segs.
Proof. reflexivity. Qed.

(** C4: the renderer's path against the joined path, evaluated at the
    segments of the member "a" of the member "" of the root, as in
    [{"":{"a":1}}].  The renderer's path is "a", the diff side's is ".a"; an
    update recorded there is looked up by the renderer as "unchanged". *)
Theorem renderPath_Join_empty_key :
  renderPath [""; "a"] = "a"
  /\ Join [""; "a"] "." = ".a"
  /\ renderPath [""; "a"] <> Join [""; "a"] "."
  /\ getChangeType
       (buildDiffMap [mkChange "update" [""; "a"] (JNumber 1) (JNumber 2)])
       (Join [""; "a"] ".") = "changed"
  /\ getChangeType
       (buildDiffMap [mkChange "update" [""; "a"] (JNumber 1) (JNumber 2)])
       (renderPath [""; "a"]) = "unchanged".
Proof. repeat split; try (vm_compute; reflexivity). discriminate. Qed.

(** ** Escaping *)

Lemma Replace_cons oldnew c s :
  Replace oldnew (String c s)
  = match replacement oldnew c with
    | Some new => new
    | None => String c EmptyString
    end +:+ Replace oldnew s.
Proof. simpl. destruct (replacement oldnew c); reflexivity. Qed.

Lemma escapeHTML_cons c s :
  escapeHTML (String c s) = escape_byte c +:+ escapeHTML s.
Proof. unfold escapeHTML, escape_byte. apply Replace_cons. Qed.

Lemma escape_byte_cases (c : ascii) :
  (c = "&"%char /\ escape_byte c = "&amp;")
  \/ (c = "<"%char /\ escape_byte c = "&lt;")
  \/ (c = ">"%char /\ escape_byte c = "&gt;")
  \/ (c = "034"%char /\ escape_byte c = "&quot;")
  \/ (c = "'"%char /\ escape_byte c = "&#39;")
  \/ (c <> "&"%char /\ c <> "<"%char /\ c <> ">"%char /\ c <> "034"%char
      /\ c <> "'"%char /\ escape_byte c = String c EmptyString).
Proof.
  destruct c as [[] [] [] [] [] [] [] []]; vm_compute;
    first [ by left
          | by (right; left)
          | by (right; right; left)
          | by (right; right; right; left)
          | by (right; right; right; right; left)
          | (do 5 right; repeat split; discriminate) ].
Qed.

Lemma string_length_app (e t : string) :
  String.length (e +:+ t) = (String.length e + String.length t)%nat.
Proof. induction e as [|x e IH]; simpl; [reflexivity | by rewrite IH]. Qed.

Lemma get_app_skip (e t : string) (j : nat) :
  String.get (String.length e + j) (e +:+ t) = String.get j t.
Proof. induction e as [|x e IH]; simpl; [reflexivity | exact IH]. Qed.

Lemma substring_app_skip (e t : string) (j n : nat) :
  substring (String.length e + j) n (e +:+ t) = substring j n t.
Proof. induction e as [|x e IH]; simpl; [reflexivity | exact IH]. Qed.

Lemma substring_app_prefix (e t : string) :
  substring 0 (String.length e) (e +:+ t) = e.
Proof.
  induction e as [|x e IH]; simpl; [by destruct t | by rewrite IH].
Qed.

(** Within what is written for one byte, an & can only be the first byte,
    and then the byte is one of the five special ones. *)
Lemma amp_position (a : ascii) (i : nat) :
  String.get i (escape_byte a) = Some "&"%char ->
  i = 0%nat
  /\ In (a, escape_byte a)
       [ ("&"%char, "&amp;"); ("<"%char, "&lt;"); (">"%char, "&gt;");
         ("034"%char, "&quot;"); ("'"%char, "&#39;") ].
Proof.
  intros Hi.
  destruct (escape_byte_cases a)
    as [[-> He] | [[-> He] | [[-> He] | [[-> He] | [[-> He] | (Hn&?&?&?&?& He)]]]]];
    rewrite He in Hi |- *;
    (destruct i as [|i]; [| do 6 (try destruct i as [|i]); discriminate Hi]).
  1-5: split; [reflexivity | simpl; tauto].
  simpl in Hi. congruence.
Qed.

(** C10: [escapeHTML] sanitizes.  No byte of the output is <, >, the double
    quote or the single quote; and every & of the output is the first byte
    of the entity written for a special byte of the input: the input splits
    around that byte, the & stands where the escaped prefix ends, and the
    entity of the byte follows from there. *)
Theorem escapeHTML_sanitizes (s : string) :
  (forall c : ascii, In c (list_ascii_of_string (escapeHTML s)) ->
     c <> "<"%char /\ c <> ">"%char /\ c <> "034"%char /\ c <> "'"%char)
  /\ (forall i : nat, String.get i (escapeHTML s) = Some "&"%char ->
        exists (pre : string) (c : ascii) (post ent : string),
          s = pre +:+ String c post
          /\ i = String.length (escapeHTML pre)
          /\ In (c, ent)
               [ ("&"%char, "&amp;"); ("<"%char, "&lt;"); (">"%char, "&gt;");
                 ("034"%char, "&quot;"); ("'"%char, "&#39;") ]
          /\ substring i (String.length ent) (escapeHTML s) = ent).
Proof.
  induction s as [|a s [IH1 IH2]].
  - split; [intros c [] | intros i Hi; destruct i; discriminate].
  - rewrite escapeHTML_cons. split.
    + intros c Hc.
      destruct (escape_byte_cases a)
        as [[-> He] | [[-> He] | [[-> He] | [[-> He] | [[-> He] | (?&?&?&?&?& He)]]]]];
        rewrite He in Hc; simpl in Hc;
        repeat (destruct Hc as [<- | Hc];
                [repeat split; (discriminate || congruence) |]);
        exact (IH1 c Hc).
    + intros i Hi.
      destruct (decide (i < String.length (escape_byte a))%nat) as [Hlt | Hge].
      * rewrite <- append_correct1 in Hi by assumption.
        destruct (amp_position a i Hi) as [-> Hin].
        exists "", a, s, (escape_byte a).
        repeat split; [assumption | apply substring_app_prefix].
      * assert (i = (String.length (escape_byte a)
                     + (i - String.length (escape_byte a)))%nat) as Hi' by lia.
        rewrite Hi' in Hi |- *. rewrite get_app_skip in Hi.
        destruct (IH2 _ Hi) as (pre & c & post & ent & Hs & Hlen & Hin & Hsub).
        exists (String a pre), c, post, ent. repeat split.
        -- simpl. by rewrite <- Hs.
        -- by rewrite escapeHTML_cons, string_length_app, <- Hlen.
        -- assumption.
        -- by rewrite substring_app_skip.
Qed.

(** ** Sorted keys *)

Lemma map_get_Some_keys {V : Type} (m : list (string * V)) k :
  is_Some (map_get m k) <-> k ∈ map_keys m.
Proof.
  unfold map_keys. induction m as [|[k' v] m IH]; simpl.
  - split; [intros [? ?]; discriminate | intros H; inversion H].
  - destruct (String.eqb_spec k' k) as [-> | Hne].
    + split; [intros _; apply list_elem_of_here | eauto].
    + rewrite IH. split.
      * intros H. by apply list_elem_of_further.
      * intros H. apply elem_of_cons in H as [-> | H]; [contradiction | assumption].
Qed.

Lemma map_get_In {V : Type} (m : list (string * V)) k v :
  map_get m k = Some v -> (k, v) ∈ m.
Proof.
  induction m as [|[k' v'] m IH]; simpl; [discriminate |].
  destruct (String.eqb_spec k' k) as [-> | Hne].
  - intros [= ->]. apply list_elem_of_here.
  - intros H. apply list_elem_of_further. by apply IH.
Qed.

Lemma sortedKeys_Sorted {V : Type} (m : list (string * V)) :
  Sorted String.le (sortedKeys m).
Proof. apply (Sorted_merge_sort String.le). Qed.

Lemma sortedKeys_Permutation {V : Type} (m : list (string * V)) :
  sortedKeys m ≡ₚ map_keys m.
Proof. apply merge_sort_Permutation. Qed.

Lemma elem_of_sortedKeys {V : Type} (m : list (string * V)) k :
  k ∈ sortedKeys m <-> is_Some (map_get m k).
Proof. by rewrite sortedKeys_Permutation, map_get_Some_keys. Qed.

(** ** The renderer *)

Lemma height_member {float64 : Type} (m : list (string * JsonValue float64)) k v :
  map_get m k = Some v -> (height v < height (JObject m))%nat.
Proof.
  intros H. apply map_get_In in H. simpl. apply Nat.lt_succ_r.
  induction m as [|e m IH]; [inversion H |].
  apply elem_of_cons in H as [<- | H]; simpl; [lia |].
  specialize (IH H). lia.
Qed.

Lemma height_element {float64 : Type} (l : list (JsonValue float64)) i v :
  l !! i = Some v -> (height v < height (JArray l))%nat.
Proof.
  intros H. apply list_elem_of_lookup_2 in H. simpl. apply Nat.lt_succ_r.
  induction l as [|e l IH]; [inversion H |].
  apply elem_of_cons in H as [<- | H]; simpl; [lia |].
  specialize (IH H). lia.
Qed.

Section RendererFacts.
Context {float64 : Type}.
Variable Sprintf_v : float64 -> string.

(** Rewrites the list of items on the left of an equation into the one on
    the right, leaving the items to be compared one by one. *)
Ltac same_items :=
  match goal with
  | |- ?L = ?R =>
      match L with
      | context [imap ?f ?l] =>
          match R with
          | context [imap ?g l] =>
              replace (imap f l) with (imap g l);
              [reflexivity | symmetry; apply imap_ext]
          end
      end
  end.

(** Any two amounts of fuel above the height of the value give the same
    markup. *)
Lemma renderJSON_fuel_agree (n1 : nat) :
  forall (n2 : nat) (v : JsonValue float64) path diffMap,
    (height v < n1)%nat -> (height v < n2)%nat ->
    renderJSON_fuel Sprintf_v n1 v path diffMap
    = renderJSON_fuel Sprintf_v n2 v path diffMap.
Proof.
  induction n1 as [|n1 IH]; intros n2 v path diffMap H1 H2; [lia |].
  destruct n2 as [|n2]; [lia |].
  destruct v as [| b | f | s | l | m]; try reflexivity.
  - cbn [renderJSON_fuel]. same_items.
    intros i vv Hvv. cbn beta zeta.
    pose proof (height_element _ _ _ Hvv).
    rewrite (IH n2) by lia. reflexivity.
  - cbn [renderJSON_fuel]. same_items.
    intros i k Hk. cbn beta zeta.
    assert (height (default JNull (map_get m k)) < height (JObject m))%nat.
    { destruct (map_get m k) as [c|] eqn:Hc; simpl default.
      - by apply (height_member m k).
      - simpl. lia. }
    rewrite (IH n2) by lia. reflexivity.
Qed.

Lemma renderJSON_fuel_enough (n : nat) (v : JsonValue float64) path diffMap :
  (height v < n)%nat ->
  renderJSON_fuel Sprintf_v n v path diffMap = renderJSON Sprintf_v v path diffMap.
Proof. intros H. unfold renderJSON. apply renderJSON_fuel_agree; lia. Qed.

Lemma renderJSON_object (val : list (string * JsonValue float64)) path diffMap :
  renderJSON Sprintf_v (JObject val) path diffMap
  = object_head
    +:+ concat_strings
          (imap (member_item Sprintf_v val path diffMap (length (sortedKeys val)))
                (sortedKeys val))
    +:+ "</ul>}</div>".
Proof.
  unfold renderJSON at 1. cbn [renderJSON_fuel].
  replace (imap (member_item Sprintf_v val path diffMap (length (sortedKeys val)))
             (sortedKeys val))
    with (imap
            (fun (i : nat) (k : string) =>
               li_open (getChangeType diffMap (pathKey path k))
               +:+ key_span k
               +:+ renderJSON_fuel Sprintf_v (height (JObject val))
                     (default JNull (map_get val k)) (pathKey path k) diffMap
               +:+ (if (i <? length (sortedKeys val) - 1)%nat then "," else "")
               +:+ "</li>")
            (sortedKeys val)).
  - unfold object_head. by rewrite !string_app_assoc.
  - apply imap_ext. intros i k Hk. unfold member_item.
    rewrite renderJSON_fuel_enough; [reflexivity |].
    destruct (map_get val k) as [c|] eqn:Hc; simpl default.
    + by apply (height_member val k).
    + simpl. lia.
Qed.

Lemma renderJSON_array (val : list (JsonValue float64)) path diffMap :
  renderJSON Sprintf_v (JArray val) path diffMap
  = array_head
    +:+ concat_strings (imap (element_item Sprintf_v path diffMap (length val)) val)
    +:+ "</ul>]</div>".
Proof.
  unfold renderJSON at 1. cbn [renderJSON_fuel].
  replace (imap (element_item Sprintf_v path diffMap (length val)) val)
    with (imap
            (fun (i : nat) (vv : JsonValue float64) =>
               li_open (getChangeType diffMap (pathKey path (Sprintf_d i)))
               +:+ renderJSON_fuel Sprintf_v (height (JArray val)) vv
                     (pathKey path (Sprintf_d i)) diffMap
               +:+ (if (i <? length val - 1)%nat then "," else "")
               +:+ "</li>")
            val).
  - unfold array_head. by rewrite !string_app_assoc.
  - apply imap_ext. intros i vv Hvv. unfold element_item.
    rewrite renderJSON_fuel_enough; [reflexivity |].
    by apply (height_element val i).
Qed.
End RendererFacts.

(** ** Where the classes stand in the markup *)

Lemma within_refl (s : string) : within s s.
Proof. exists "", "". by rewrite string_app_empty_r. Qed.

Lemma within_trans (a b c : string) : within a b -> within b c -> within a c.
Proof.
  intros (p1 & q1 & ->) (p2 & q2 & ->). exists (p2 +:+ p1), (q1 +:+ q2).
  by rewrite !string_app_assoc.
Qed.

Lemma within_app (p a q : string) : within a (p +:+ a +:+ q).
Proof. by exists p, q. Qed.

Lemma within_part (p a q s : string) : within (p +:+ a +:+ q) s -> within a s.
Proof. apply within_trans, within_app. Qed.

Lemma concat_strings_lookup (l : list string) i x :
  l !! i = Some x -> within x (concat_strings l).
Proof.
  revert i. induction l as [|y l IH]; intros i Hi; [by rewrite lookup_nil in Hi |].
  destruct i as [|i]; simpl in Hi.
  - injection Hi as ->. exists "", (concat_strings l). reflexivity.
  - destruct (IH i Hi) as (pre & post & E). exists (y +:+ pre), post.
    simpl. rewrite E. by rewrite !string_app_assoc.
Qed.

Section Annotation.
Context {float64 : Type}.
Variable Sprintf_v : float64 -> string.

(** The item of a member stands in the markup of its object: the opening
    tag with the member's class, the key, the member's own markup. *)
Lemma member_within (m : list (string * JsonValue float64)) k c path diffMap :
  map_get m k = Some c ->
  within (li_open (getChangeType diffMap (pathKey path k))
          +:+ key_span k
          +:+ renderJSON Sprintf_v c (pathKey path k) diffMap)
         (renderJSON Sprintf_v (JObject m) path diffMap).
Proof.
  intros Hc.
  assert (Hk : k ∈ sortedKeys m) by (apply elem_of_sortedKeys; eauto).
  apply list_elem_of_lookup in Hk as [i Hi].
  rewrite renderJSON_object.
  eapply within_trans; [| apply within_app].
  eapply within_trans;
    [| apply (concat_strings_lookup _ i); rewrite list_lookup_imap, Hi; reflexivity].
  unfold member_item. rewrite Hc. simpl default.
  exists "", ((if (i <? length (sortedKeys m) - 1)%nat then "," else "") +:+ "</li>").
  by rewrite !string_app_assoc.
Qed.

(** The same for an element of an array, which has no key. *)
Lemma element_within (l : list (JsonValue float64)) i c path diffMap :
  l !! i = Some c ->
  within (li_open (getChangeType diffMap (pathKey path (Sprintf_d i)))
          +:+ renderJSON Sprintf_v c (pathKey path (Sprintf_d i)) diffMap)
         (renderJSON Sprintf_v (JArray l) path diffMap).
Proof.
  intros Hc. rewrite renderJSON_array.
  eapply within_trans; [| apply within_app].
  eapply within_trans;
    [| apply (concat_strings_lookup _ i); rewrite list_lookup_imap, Hc; reflexivity].
  unfold element_item.
  exists "", ((if (i <? length l - 1)%nat then "," else "") +:+ "</li>").
  by rewrite !string_app_assoc.
Qed.

(** The markup of a node stands in the markup of every value it is reached
    from, rendered at the path extended by the segments followed. *)
Lemma reach_within (v n : JsonValue float64) segs :
  reach v segs n ->
  forall path diffMap,
    within (renderJSON Sprintf_v n (fold_left pathKey segs path) diffMap)
           (renderJSON Sprintf_v v path diffMap).
Proof.
  induction 1 as [v | m k c segs n Hc _ IH | l i c segs n Hc _ IH];
    intros path diffMap.
  - apply within_refl.
  - eapply within_trans; [apply IH |]. simpl.
    pose proof (member_within m k c path diffMap Hc) as H.
    rewrite <- string_app_assoc in H.
    eapply within_trans; [| exact H].
    exists (li_open (getChangeType diffMap (pathKey path k)) +:+ key_span k), "".
    by rewrite string_app_empty_r.
  - eapply within_trans; [apply IH |]. simpl.
    eapply within_trans; [| apply (element_within l i c path diffMap Hc)].
    exists (li_open (getChangeType diffMap (pathKey path (Sprintf_d i)))), "".
    by rewrite string_app_empty_r.
Qed.
End Annotation.

(** C6, as stated, fails at the root: with the index of [root_update],
    where the class at the root's path is "changed", the markup of the root
    string is a bare span in which that class does not occur. *)
Lemma root_class_not_in_markup :
  getChangeType (buildDiffMap root_update) (renderPath []) = "changed"
  /\ renderJSON Sprintf_v_int (JString "x") "" (buildDiffMap root_update)
     = "<span class=" +:+ dq +:+ "json-string" +:+ dq +:+ ">" +:+ dq +:+ "x"
       +:+ dq +:+ "</span>"
  /\ occurs "changed"
       (renderJSON Sprintf_v_int (JString "x") "" (buildDiffMap root_update))
     = false.
Proof. repeat split; vm_compute; reflexivity. Qed.

(** Below a member whose key is empty and that hangs off the root, the
    path the renderer looks up is not the joined path (see
    [renderPath_Join_empty_key]): in the document [{"":{"a":1}}] with an
    update recorded at the segments of the inner member, the index answers
    "changed" at the joined path while the item of that member carries
    "unchanged" and no item carries "changed".  The statement below leaves
    these nodes out. *)
Lemma empty_key_member_class :
  getChangeType (buildDiffMap empty_key_update) (Join [""; "a"] ".") = "changed"
  /\ within (li_open "unchanged" +:+ key_span "a")
            (renderJSON Sprintf_v_int empty_key_document ""
               (buildDiffMap empty_key_update))
  /\ occurs (li_open "changed")
       (renderJSON Sprintf_v_int empty_key_document ""
          (buildDiffMap empty_key_update))
     = false.
Proof.
  split; [vm_compute; reflexivity | split; [| vm_compute; reflexivity]].
  assert (Hreach : reach empty_key_document [""] (JObject [("a", JNumber 1%Z)])).
  { eapply reach_member; [reflexivity | apply reach_here]. }
  pose proof (reach_within Sprintf_v_int _ _ _ Hreach ""
                (buildDiffMap empty_key_update)) as Hin.
  pose proof (member_within Sprintf_v_int [("a", JNumber 1%Z)] "a" (JNumber 1%Z)
                "" (buildDiffMap empty_key_update) eq_refl) as Hitem.
  rewrite <- string_app_assoc in Hitem.
  eapply within_trans; [| exact Hin].
  eapply within_trans; [| exact Hitem].
  exists "", (renderJSON Sprintf_v_int (JNumber 1%Z) (pathKey "" "a")
                (buildDiffMap empty_key_update)).
  reflexivity.
Qed.

(** C6 (amended): per-node annotation.  For every value and every index,
    with the root rendered at the empty path, every node below the root
    whose segments from the root do not start with an empty segment, scalar
    leaves included, stands in the markup right after an opening [li] tag
    that carries the class looked up at the node's own canonical path (its
    segments joined with a dot), after its key when it is a member of an
    object.  The root carries no class of its own: the markup of an object
    or an array opens with a fixed tag, and the markup of a scalar does not
    depend on the index. *)
Theorem renderJSON_annotates_descendants {float64 : Type}
    (Sprintf_v : float64 -> string)
    (v parent : JsonValue float64) (segs : list string)
    (diffMap : DiffMap) :
  reach v segs parent ->
  (forall m k c, parent = JObject m -> map_get m k = Some c ->
     head (segs ++ [k]) <> Some "" ->
     within (li_open (getChangeType diffMap (Join (segs ++ [k]) "."))
             +:+ key_span k
             +:+ renderJSON Sprintf_v c (Join (segs ++ [k]) ".") diffMap)
            (renderJSON Sprintf_v v "" diffMap))
  /\ (forall l i c, parent = JArray l -> l !! i = Some c ->
        head (segs ++ [Sprintf_d i]) <> Some "" ->
        within (li_open (getChangeType diffMap (Join (segs ++ [Sprintf_d i]) "."))
                +:+ renderJSON Sprintf_v c (Join (segs ++ [Sprintf_d i]) ".") diffMap)
               (renderJSON Sprintf_v v "" diffMap))
  /\ (forall path : string,
        match v with
        | JObject _ =>
            exists rest, renderJSON Sprintf_v v path diffMap = object_head +:+ rest
        | JArray _ =>
            exists rest, renderJSON Sprintf_v v path diffMap = array_head +:+ rest
        | _ =>
            forall other : DiffMap,
              renderJSON Sprintf_v v path other = renderJSON Sprintf_v v path diffMap
        end).
Proof.
  intros Hreach. split; [| split].
  - intros m k c -> Hc Hhead. rewrite <- (renderPath_Join _ Hhead).
    unfold renderPath. rewrite fold_left_app. cbn [fold_left].
    eapply within_trans; [| apply (reach_within Sprintf_v _ _ _ Hreach)].
    by apply member_within.
  - intros l i c -> Hc Hhead. rewrite <- (renderPath_Join _ Hhead).
    unfold renderPath. rewrite fold_left_app. cbn [fold_left].
    eapply within_trans; [| apply (reach_within Sprintf_v _ _ _ Hreach)].
    by apply element_within.
  - intros path. destruct v as [| b | f | s | l | m]; try (intros other; reflexivity).
    + rewrite renderJSON_array. eauto.
    + rewrite renderJSON_object. eauto.
Qed.

Lemma renderJSON_annotates_descendants_witness :
  within (li_open "removed"
          +:+ key_span "b"
          +:+ renderJSON Sprintf_v_int (JNumber 1) "a.b"
                (buildDiffMap colliding_changes))
         (renderJSON Sprintf_v_int
            (JObject [("a", JObject [("b", JNumber 1)])]) ""
            (buildDiffMap colliding_changes)).
Proof.
  assert (Hreach : reach (JObject [("a", JObject [("b", JNumber 1%Z)])]) ["a"]
                     (JObject [("b", JNumber 1%Z)])).
  { eapply reach_member; [reflexivity | apply reach_here]. }
  refine (proj1 (renderJSON_annotates_descendants Sprintf_v_int _ _ _
                   (buildDiffMap colliding_changes) Hreach)
            [("b", JNumber 1%Z)] "b" (JNumber 1%Z) eq_refl eq_refl _).
  discriminate.
Defined.

(** ** Independence of the order of the entries *)

Lemma unique_keys_object {float64 : Type} (m : list (string * JsonValue float64)) :
  unique_keys (JObject m) = true ->
  NoDup (map_keys m)
  /\ (forall k c, map_get m k = Some c -> unique_keys c = true).
Proof.
  simpl. intros H. apply andb_prop in H as [Hnd Hall]. split.
  - by apply bool_decide_eq_true in Hnd.
  - intros k c Hc. apply map_get_In, list_elem_of_In in Hc.
    rewrite forallb_forall in Hall. exact (Hall _ Hc).
Qed.

Lemma unique_keys_array {float64 : Type} (l : list (JsonValue float64)) i c :
  unique_keys (JArray l) = true -> l !! i = Some c -> unique_keys c = true.
Proof.
  simpl. intros Hall Hc. rewrite forallb_forall in Hall.
  apply Hall, list_elem_of_In. by eapply list_elem_of_lookup_2.
Qed.

(** Two maps with the same key set have the same sorted keys, whatever the
    order of their entries. *)
Lemma sortedKeys_same {V W : Type} (m1 : list (string * V)) (m2 : list (string * W)) :
  NoDup (map_keys m1) -> NoDup (map_keys m2) ->
  (forall k, is_Some (map_get m1 k) <-> is_Some (map_get m2 k)) ->
  sortedKeys m1 = sortedKeys m2.
Proof.
  intros Hnd1 Hnd2 Hsame.
  apply (Sorted_unique String.le); try apply sortedKeys_Sorted.
  rewrite !sortedKeys_Permutation.
  apply NoDup_Permutation; try assumption.
  intros k. by rewrite <- !map_get_Some_keys.
Qed.

Lemma imap_Forall2 {A B C : Type} (R : A -> B -> Prop) (l1 : list A) (l2 : list B) :
  Forall2 R l1 l2 ->
  forall (f : nat -> A -> C) (g : nat -> B -> C),
    (forall i a b, l1 !! i = Some a -> l2 !! i = Some b -> R a b -> f i a = g i b) ->
    imap f l1 = imap g l2.
Proof.
  induction 1 as [|a b l1 l2 Hab _ IH]; intros f g Hfg; [reflexivity |].
  simpl. f_equal.
  - by apply (Hfg 0%nat).
  - apply IH. intros i a' b' Ha Hb. by apply (Hfg (S i)).
Qed.

Section OrderIndependence.
Context {float64 : Type}.
Variable Sprintf_v : float64 -> string.

Lemma renderJSON_same_json (n : nat) :
  forall (x y : JsonValue float64) path diffMap,
    (height x < n)%nat ->
    unique_keys x = true -> unique_keys y = true -> same_json x y ->
    renderJSON Sprintf_v x path diffMap = renderJSON Sprintf_v y path diffMap.
Proof.
  induction n as [|n IH]; intros x y path diffMap Hn Hx Hy Hxy; [lia |].
  destruct Hxy as [| b | f | s | l1 l2 Hl | m1 m2 Hm]; try reflexivity.
  - rewrite !renderJSON_array. rewrite (Forall2_length _ _ _ Hl).
    f_equal. f_equal. f_equal.
    apply (imap_Forall2 _ _ _ Hl). intros i a b Ha Hb Hab. unfold element_item.
    rewrite (IH a b); [reflexivity | | | | assumption].
    + pose proof (height_element _ _ _ Ha). lia.
    + by apply (unique_keys_array l1 i).
    + by apply (unique_keys_array l2 i).
  - destruct (unique_keys_object m1 Hx) as [Hnd1 Hc1].
    destruct (unique_keys_object m2 Hy) as [Hnd2 Hc2].
    assert (Hkeys : sortedKeys m1 = sortedKeys m2).
    { apply sortedKeys_same; try assumption.
      intros k. destruct (Hm k); split; intros [? ?]; eauto; discriminate. }
    rewrite !renderJSON_object, Hkeys. f_equal. f_equal. f_equal.
    apply imap_ext. intros i k _. unfold member_item.
    pose proof (Hm k) as Hk.
    destruct (map_get m1 k) as [c1|] eqn:E1, (map_get m2 k) as [c2|] eqn:E2;
      inversion Hk as [? ? Hc |]; subst; [| reflexivity].
    simpl default.
    rewrite (IH c1 c2); [reflexivity | | | | assumption].
    + pose proof (height_member _ _ _ E1). lia.
    + by apply (Hc1 k).
    + by apply (Hc2 k).
Qed.
End OrderIndependence.

(** C7: determinism over key order.  [sortedKeys] answers exactly the keys
    of the map, in ascending order; two values that denote the same JSON
    value, whatever the order of the entries of their objects, have the same
    markup; the items of an array follow the positions of its elements; and
    the items of an object follow its sorted keys, one item per key, each
    with the value found under that key. *)
Theorem renderJSON_key_order_independent {float64 : Type}
    (Sprintf_v : float64 -> string) :
  (forall m : list (string * JsonValue float64),
      Sorted String.le (sortedKeys m) /\ sortedKeys m ≡ₚ map_keys m)
  /\ (forall (x y : JsonValue float64) (path : string) (diffMap : DiffMap),
        unique_keys x = true -> unique_keys y = true -> same_json x y ->
        renderJSON Sprintf_v x path diffMap = renderJSON Sprintf_v y path diffMap)
  /\ (forall (val : list (JsonValue float64)) (path : string) (diffMap : DiffMap),
        renderJSON Sprintf_v (JArray val) path diffMap
        = array_head
          +:+ concat_strings
                (imap (element_item Sprintf_v path diffMap (length val)) val)
          +:+ "</ul>]</div>")
  /\ (forall (val : list (string * JsonValue float64)) (path : string)
             (diffMap : DiffMap),
        renderJSON Sprintf_v (JObject val) path diffMap
        = object_head
          +:+ concat_strings
                (imap (member_item Sprintf_v val path diffMap
                         (length (sortedKeys val)))
                      (sortedKeys val))
          +:+ "</ul>}</div>").
Proof.
  split; [| split; [| split]].
  - intros m. split; [apply sortedKeys_Sorted | apply sortedKeys_Permutation].
  - intros x y path diffMap Hx Hy Hxy.
    by apply (renderJSON_same_json Sprintf_v (S (height x))); [lia | | |].
  - apply renderJSON_array.
  - apply renderJSON_object.
Qed.

Lemma listings_same_json : same_json listing_one listing_two.
Proof.
  apply same_object. intros k. cbn [map_get].
  destruct (String.eqb_spec "b" k) as [<- | Hb].
  - cbn. constructor. constructor.
  - destruct (String.eqb_spec "a" k) as [<- | Ha]; [| constructor].
    constructor. apply same_array.
    constructor; [| constructor; [constructor | constructor]].
    apply same_object. intros k. cbn [map_get].
    destruct (String.eqb_spec "y" k) as [<- | Hy].
    + cbn. constructor. constructor.
    + destruct (String.eqb_spec "x" k) as [<- | Hx]; repeat constructor.
Qed.

Lemma renderJSON_key_order_independent_witness :
  renderJSON Sprintf_v_int listing_one "" (buildDiffMap colliding_changes)
  = renderJSON Sprintf_v_int listing_two "" (buildDiffMap colliding_changes).
Proof.
  apply (proj1 (proj2 (renderJSON_key_order_independent Sprintf_v_int))).
  - vm_compute. reflexivity.
  - vm_compute. reflexivity.
  - exact listings_same_json.
Defined.

(** ** Key sorting of a document *)

Lemma map_get_set {V : Type} (m : list (string * V)) k0 v k :
  map_get (map_set m k0 v) k = if String.eqb k0 k then Some v else map_get m k.
Proof.
  induction m as [|[k' v'] m IH]; simpl.
  - reflexivity.
  - destruct (String.eqb_spec k' k0) as [-> | Hne]; simpl.
    + by destruct (String.eqb k0 k).
    + rewrite IH. destruct (String.eqb_spec k' k) as [-> | Hne'];
        destruct (String.eqb_spec k0 k) as [-> | Hne'']; congruence.
Qed.

(** The map filled by the loop over the keys. *)
Lemma map_get_fold_set {V : Type} (g : string -> V) (keys : list string) :
  forall (init : list (string * V)) (k : string),
    map_get (fold_left (fun sorted k => map_set sorted k (g k)) keys init) k
    = if decide (k ∈ keys) then Some (g k) else map_get init k.
Proof.
  induction keys as [|k0 keys IH]; intros init k; cbn [fold_left].
  - rewrite decide_False by (intros H; inversion H). reflexivity.
  - rewrite IH. destruct (decide (k ∈ keys)) as [Hin | Hnin].
    + rewrite decide_True by (by apply list_elem_of_further). reflexivity.
    + rewrite map_get_set. destruct (String.eqb_spec k0 k) as [-> | Hne].
      * rewrite decide_True by apply list_elem_of_here. reflexivity.
      * rewrite decide_False; [reflexivity |].
        intros H. apply elem_of_cons in H as [-> | H]; contradiction.
Qed.

(** The slice overwritten by the loop over its indices: every element read
    is still the original one. *)
Lemma array_loop_map {A : Type} (g : A -> A) (d : A) (rest : list A) :
  forall done : list A,
    fold_left (fun (val : list A) (i : nat) => <[i := g (default d (val !! i))]> val)
      (seq (length done) (length rest)) (done ++ rest)
    = done ++ map g rest.
Proof.
  induction rest as [|x rest IH]; intros done; simpl.
  - reflexivity.
  - rewrite lookup_app_r by lia. rewrite Nat.sub_diag. simpl.
    rewrite insert_app_r_alt by lia. rewrite Nat.sub_diag. simpl.
    replace (done ++ g x :: rest) with ((done ++ [g x]) ++ rest)
      by (by rewrite <- app_assoc).
    replace (S (length done)) with (length (done ++ [g x]))
      by (rewrite length_app; simpl; lia).
    rewrite IH, <- app_assoc. reflexivity.
Qed.

Lemma sortJSON_fuel_array {float64 : Type} (n : nat) (val : list (JsonValue float64)) :
  sortJSON_fuel (S n) (JArray val) = JArray (map (sortJSON_fuel n) val).
Proof.
  cbn [sortJSON_fuel]. f_equal.
  exact (array_loop_map (sortJSON_fuel n) JNull val []).
Qed.

Lemma fold_left_ext_in {A B : Type} (f g : A -> B -> A) (l : list B) :
  (forall a b, b ∈ l -> f a b = g a b) ->
  forall a, fold_left f l a = fold_left g l a.
Proof.
  induction l as [|b l IH]; intros H a; simpl; [reflexivity |].
  rewrite (H a b) by apply list_elem_of_here.
  apply IH. intros a' b' Hb'. apply H. by apply list_elem_of_further.
Qed.

(** Any two amounts of fuel above the height of the value give the same
    sorted value. *)
Lemma sortJSON_fuel_agree {float64 : Type} (n1 : nat) :
  forall (n2 : nat) (v : JsonValue float64),
    (height v < n1)%nat -> (height v < n2)%nat ->
    sortJSON_fuel n1 v = sortJSON_fuel n2 v.
Proof.
  induction n1 as [|n1 IH]; intros n2 v H1 H2; [lia |].
  destruct n2 as [|n2]; [lia |].
  destruct v as [| b | f | s | l | m]; try reflexivity.
  - rewrite !sortJSON_fuel_array. f_equal.
    apply map_ext_in. intros c Hc.
    apply list_elem_of_In, list_elem_of_lookup in Hc as [i Hi].
    pose proof (height_element _ _ _ Hi). apply IH; lia.
  - cbn [sortJSON_fuel]. f_equal.
    apply fold_left_ext_in. intros sorted k Hk. f_equal.
    apply elem_of_sortedKeys in Hk as [c Hc]. rewrite Hc. simpl default.
    pose proof (height_member _ _ _ Hc). apply IH; lia.
Qed.

Lemma sortJSON_fuel_enough {float64 : Type} (n : nat) (v : JsonValue float64) :
  (height v < n)%nat -> sortJSON_fuel n v = sortJSON v.
Proof. intros H. unfold sortJSON. apply sortJSON_fuel_agree; lia. Qed.

Lemma sortJSON_array {float64 : Type} (val : list (JsonValue float64)) :
  sortJSON (JArray val) = JArray (map sortJSON val).
Proof.
  unfold sortJSON at 1. rewrite sortJSON_fuel_array. f_equal.
  apply map_ext_in. intros c Hc.
  apply list_elem_of_In, list_elem_of_lookup in Hc as [i Hi].
  apply sortJSON_fuel_enough. by apply (height_element val i).
Qed.

Lemma sortJSON_object {float64 : Type} (val : list (string * JsonValue float64)) :
  sortJSON (JObject val)
  = JObject
      (fold_left
         (fun sorted k =>
            map_set sorted k (sortJSON (default JNull (map_get val k))))
         (sortedKeys val) []).
Proof.
  unfold sortJSON at 1. cbn [sortJSON_fuel]. f_equal.
  apply fold_left_ext_in. intros sorted k Hk. f_equal.
  apply elem_of_sortedKeys in Hk as [c Hc]. rewrite Hc. simpl default.
  apply sortJSON_fuel_enough. by apply (height_member val k).
Qed.

Lemma sortJSON_same_json_below {float64 : Type} (n : nat) :
  forall v : JsonValue float64, (height v < n)%nat -> same_json (sortJSON v) v.
Proof.
  induction n as [|n IH]; intros v Hn; [lia |].
  destruct v as [| b | f | s | l | m];
    [constructor | constructor | constructor | constructor | |].
  - rewrite sortJSON_array. apply same_array.
    apply Forall2_fmap_l, Forall_Forall2_diag, Forall_lookup.
    intros i c Hc. apply IH. pose proof (height_element _ _ _ Hc). lia.
  - rewrite sortJSON_object. apply same_object. intros k.
    rewrite map_get_fold_set.
    destruct (decide (k ∈ sortedKeys m)) as [Hin | Hnin].
    + apply elem_of_sortedKeys in Hin as [c Hc]. rewrite Hc. simpl default.
      constructor. apply IH. pose proof (height_member _ _ _ Hc). lia.
    + rewrite elem_of_sortedKeys in Hnin.
      apply eq_None_not_Some in Hnin. rewrite Hnin. constructor.
Qed.

(** C9: [sortJSON] preserves the content.  The value it answers denotes the
    JSON value it was given: the same scalar, an array of the same length
    with the same elements position by position, an object with the same
    value under the same keys. *)
Theorem sortJSON_preserves_content {float64 : Type} (v : JsonValue float64) :
  same_json (sortJSON v) v.
Proof. apply (sortJSON_same_json_below (S (height v))). lia. Qed.

Example diff_scenarios :
  diff (JObject [("x", JNumber 1)]) (JObject [("x", JNumber 1)]) = []
  /\ diff (JObject [("x", JNumber 1)]) (JObject [("x", JNumber 2)])
     = [mkChange "update" ["x"] (JNumber 1) (JNumber 2)]
  /\ diff (JObject []) (JObject [("y", JArray [JNumber 1; JNumber 2])])
     = [mkChange "create" ["y"] JNull (JArray [JNumber 1; JNumber 2])]
  /\ diff (JArray [JNumber 1; JNumber 2; JNumber 3]) (JArray [JNumber 1; JNumber 2])
     = [mkChange "delete" ["2"] (JNumber 3) JNull]
  /\ diff (JObject [("n", JObject [("a", JNumber 1)])]) (JObject [("n", JNumber 5)])
     = [mkChange "update" ["n"] (JObject [("a", JNumber 1)]) (JNumber 5)].
Proof. repeat split; vm_compute; reflexivity. Qed.

(** ** The diff engine *)

(** Induction over a value, with the property at hand for every element of
    an array and every member of an object. *)
Lemma JsonValue_nested_ind {float64 : Type} (P : JsonValue float64 -> Prop) :
  P JNull ->
  (forall b, P (JBool b)) ->
  (forall f, P (JNumber f)) ->
  (forall s, P (JString s)) ->
  (forall l, Forall P l -> P (JArray l)) ->
  (forall m, Forall (fun e => P (snd e)) m -> P (JObject m)) ->
  forall v, P v.
Proof.
  intros Hnull Hbool Hnum Hstr Harr Hobj.
  fix IH 1. intros [| b | f | s | l | m].
  - exact Hnull.
  - apply Hbool.
  - apply Hnum.
  - apply Hstr.
  - apply Harr. induction l as [|x l IHl]; constructor; [apply IH | exact IHl].
  - apply Hobj. induction m as [|[k x] m IHm]; constructor; [apply IH | exact IHm].
Qed.

Lemma filter_none {A : Type} (P : A -> Prop) `{forall x, Decision (P x)} (l : list A) :
  (forall x, x ∈ l -> ~ P x) -> filter P l = [].
Proof.
  induction l as [|x l IH]; intros Hl; [reflexivity |].
  rewrite filter_cons_False by (apply Hl, list_elem_of_here).
  apply IH. intros y Hy. apply Hl. by apply list_elem_of_further.
Qed.

Lemma filter_absent_from_self (keys : list string) :
  filter (fun k => k ∉ keys) keys = [].
Proof. apply filter_none. intros k Hk Hnot. exact (Hnot Hk). Qed.

Lemma flat_map_all_nil {A B : Type} (f : A -> list B) (l : list A) :
  (forall x, x ∈ l -> f x = []) -> flat_map f l = [].
Proof.
  induction l as [|x l IH]; intros H; simpl; [reflexivity |].
  rewrite (H x) by apply list_elem_of_here.
  apply IH. intros y Hy. apply H. by apply list_elem_of_further.
Qed.

Section DiffFacts.
Context {float64 : Type} `{EqDecision float64}.

(** C2: identity of the diff engine.  Comparing a value with itself gives
    the empty change sequence. *)
Theorem diff_identity (x : JsonValue float64) : diff x x = [].
Proof.
  unfold diff. generalize (@nil string).
  induction x as [| b | f | s | l IH | m IH] using JsonValue_nested_ind;
    intros path.
  - reflexivity.
  - simpl. by rewrite bool_decide_eq_true_2.
  - simpl. by rewrite bool_decide_eq_true_2.
  - simpl. by rewrite bool_decide_eq_true_2.
  - cbn [diff_at]. rewrite drop_all. cbn [imap]. rewrite !app_nil_r.
    assert (Hpos : forall (start : nat) (done : list (JsonValue float64)),
               length done = start ->
               concat
                 (map_from
                    (fun i x =>
                       match (done ++ l) !! i with
                       | Some y => diff_at (path ++ [Sprintf_d i]) x y
                       | None => []
                       end) start l) = []).
    { induction IH as [|x l Hx _ IHl]; intros start done Hlen; [reflexivity |].
      cbn [map_from concat].
      rewrite lookup_app_r by lia. rewrite Hlen, Nat.sub_diag. cbn [lookup list_lookup].
      rewrite Hx. cbn [app].
      specialize (IHl (S start) (done ++ [x])).
      rewrite <- app_assoc in IHl. apply IHl.
      rewrite length_app. simpl. lia. }
    exact (Hpos 0%nat [] eq_refl).
  - cbn [diff_at]. rewrite !filter_absent_from_self. cbn [flat_map app].
    apply flat_map_all_nil. intros k _.
    clear -IH. induction IH as [|[k' va] m Hva _ IHm]; [reflexivity |].
    cbn [map map_get fst snd].
    destruct (String.eqb k' k); [apply Hva | apply IHm].
Qed.
End DiffFacts.

Lemma diff_identity_witness : diff listing_one listing_one = [].
Proof. exact (diff_identity listing_one). Defined.

(** * Further properties of the code *)

(** ** The change index, continued *)

(** Every entry of the index was written for some change of the list. *)
Lemma buildDiffMap_lookup_Some {float64 : Type} (cs : list (Change float64)) p v :
  buildDiffMap cs !! p = Some v ->
  exists c, c ∈ cs /\ Join (Path c) "." = p /\ classOf (Type_ c) = v.
Proof.
  induction cs as [|c cs IH] using rev_ind.
  - rewrite buildDiffMap_nil, lookup_empty. discriminate.
  - rewrite buildDiffMap_snoc.
    destruct (decide (Join (Path c) "." = p)) as [Heq | Hne].
    + rewrite Heq, lookup_insert_eq. intros [= <-].
      exists c. split; [apply elem_of_app; right; apply list_elem_of_here | done].
    + rewrite lookup_insert_ne by assumption. intros Hv.
      destruct (IH Hv) as (c' & Hin & Hp & Hv').
      exists c'. split; [apply elem_of_app; by left | done].
Qed.

Lemma classOf_cases ty :
  (classOf ty = Added <-> ty = "create")
  /\ (classOf ty = Removed <-> ty = "delete")
  /\ (classOf ty = Changed <-> ty = "update").
Proof.
  unfold classOf.
  destruct (String.eqb_spec ty "create") as [-> | H1];
    [repeat split; (done || discriminate) |].
  destruct (String.eqb_spec ty "delete") as [-> | H2];
    [repeat split; (done || discriminate) |].
  destruct (String.eqb_spec ty "update") as [-> | H3];
    [repeat split; (done || discriminate) |].
  repeat split; (done || discriminate).
Qed.

(** X1: the keys of the index built by [buildDiffMap] are exactly the dotted
    paths of the changes, so the index never has more entries than there
    are changes. *)
Theorem buildDiffMap_dom {float64 : Type} (changes : list (Change float64)) :
  dom (buildDiffMap changes)
  = list_to_set ((fun c => Join (Path c) ".") <$> changes)
  /\ (size (buildDiffMap changes) <= length changes)%nat.
Proof.
  induction changes as [|c cs [IHd IHs]] using rev_ind.
  - rewrite buildDiffMap_nil. split; [by rewrite dom_empty_L | by rewrite map_size_empty].
  - rewrite buildDiffMap_snoc. split.
    + rewrite dom_insert_L, IHd, fmap_app, list_to_set_app_L. simpl.
      rewrite (right_id_L ∅ (∪)). apply (comm_L (∪)).
    + rewrite length_app. simpl.
      destruct (buildDiffMap cs !! Join (Path c) ".") as [v|] eqn:E.
      * rewrite map_size_insert_Some by eauto. lia.
      * rewrite map_size_insert_None by assumption. lia.
Qed.

(** X2: building the index from two lists in a row gives the entries of the
    second list, and those of the first at the paths the second does not
    write: later changes override earlier ones path by path. *)
Theorem buildDiffMap_app {float64 : Type} (cs1 cs2 : list (Change float64)) :
  buildDiffMap (cs1 ++ cs2) = buildDiffMap cs2 ∪ buildDiffMap cs1.
Proof.
  induction cs2 as [|c cs2 IH] using rev_ind.
  - rewrite app_nil_r, buildDiffMap_nil. by rewrite (left_id_L ∅ (∪)).
  - rewrite app_assoc, !buildDiffMap_snoc, IH. by rewrite insert_union_l.
Qed.

(** With pairwise different dotted paths, an entry of the index is the class
    of the one change with that path. *)
Lemma buildDiffMap_lookup_NoDup {float64 : Type} (cs : list (Change float64)) p v :
  NoDup ((fun c => Join (Path c) ".") <$> cs) ->
  buildDiffMap cs !! p = Some v
  <-> exists c, c ∈ cs /\ Join (Path c) "." = p /\ classOf (Type_ c) = v.
Proof.
  intros Hnd. split; [apply buildDiffMap_lookup_Some |].
  induction cs as [|c cs IH] using rev_ind.
  - intros (c & Hin & _). inversion Hin.
  - rewrite fmap_app in Hnd. apply NoDup_app in Hnd as (Hnd & Hdisj & _).
    intros (c' & Hin & Hp & Hv). rewrite buildDiffMap_snoc.
    apply elem_of_app in Hin as [Hin | Hin].
    + rewrite lookup_insert_ne; [apply IH; eauto |].
      intros Heq. apply (Hdisj p).
      * rewrite <- Hp. apply list_elem_of_fmap. eauto.
      * rewrite <- Heq. simpl. apply list_elem_of_here.
    + apply list_elem_of_singleton in Hin. subst c'.
      rewrite Hp, lookup_insert_eq. by rewrite Hv.
Qed.

(** X3: when the dotted paths of the changes are pairwise different, the
    index does not depend on the order in which the changes are listed. *)
Theorem buildDiffMap_order_independent {float64 : Type}
    (cs1 cs2 : list (Change float64)) :
  NoDup ((fun c => Join (Path c) ".") <$> cs1) ->
  cs1 ≡ₚ cs2 ->
  buildDiffMap cs1 = buildDiffMap cs2.
Proof.
  intros Hnd Hperm.
  assert (Hnd2 : NoDup ((fun c => Join (Path c) ".") <$> cs2)) by (by rewrite <- Hperm).
  apply map_eq. intros p. apply option_eq. intros v.
  rewrite !buildDiffMap_lookup_NoDup by assumption.
  split; intros (c & Hin & H); exists c; (split; [| exact H]).
  - by rewrite <- Hperm.
  - by rewrite Hperm.
Qed.

Lemma buildDiffMap_order_independent_witness :
  buildDiffMap
    [ mkChange "create" ["a"] (@JNull Z) JNull; mkChange "delete" ["b"] JNull JNull ]
  = buildDiffMap
      [ mkChange "delete" ["b"] (@JNull Z) JNull; mkChange "create" ["a"] JNull JNull ].
Proof.
  apply buildDiffMap_order_independent.
  - apply (bool_decide_unpack _). vm_compute. exact I.
  - apply perm_swap.
Defined.

(** X4: a lookup that answers "added", "removed" or "changed" is backed by a
    change of the list with that dotted path and the type create, delete or
    update: the index highlights nothing the change list does not name. *)
Theorem getChangeType_backed_by_change {float64 : Type}
    (changes : list (Change float64)) (path : string) :
  (getChangeType (buildDiffMap changes) path = "added" ->
   exists c, c ∈ changes /\ Join (Path c) "." = path /\ Type_ c = "create")
  /\ (getChangeType (buildDiffMap changes) path = "removed" ->
      exists c, c ∈ changes /\ Join (Path c) "." = path /\ Type_ c = "delete")
  /\ (getChangeType (buildDiffMap changes) path = "changed" ->
      exists c, c ∈ changes /\ Join (Path c) "." = path /\ Type_ c = "update").
Proof.
  unfold getChangeType.
  destruct (buildDiffMap changes !! path) as [v|] eqn:E;
    [| repeat split; discriminate].
  destruct (buildDiffMap_lookup_Some _ _ _ E) as (c & Hin & Hp & Hv).
  destruct (classOf_cases (Type_ c)) as (Ha & Hr & Hc).
  repeat split; intros Hs; exists c; (split; [assumption |]); (split; [assumption |]);
    destruct v; try discriminate Hs.
  - by apply Ha.
  - by apply Hr.
  - by apply Hc.
Qed.

Lemma getChangeType_backed_by_change_witness :
  exists c : Change Z,
    c ∈ colliding_changes /\ Join (Path c) "." = "a.b" /\ Type_ c = "delete".
Proof.
  apply (proj1 (proj2 (getChangeType_backed_by_change colliding_changes "a.b"))).
  vm_compute. reflexivity.
Defined.

(** ** The table of differences *)

Section TableFacts.
Context {float64 : Type}.
Variable Sprintf_v_value : JsonValue float64 -> string.

(** The loop of [buildDiffTable] maps every change to its row. *)
Lemma buildDiffTable_fmap (cs : list (Change float64)) :
  buildDiffTable Sprintf_v_value cs
  = (fun c => {| ResultPath := Join (Path c) ".";
                 ResultType := Type_ c;
                 ResultFrom := Sprintf_v_value (From c);
                 ResultTo := Sprintf_v_value (To c) |}) <$> cs.
Proof.
  induction cs as [|c cs IH] using rev_ind; [reflexivity |].
  unfold buildDiffTable in *. rewrite fold_left_app, IH, fmap_app. reflexivity.
Qed.

(** X5: the table and the index built from one change list name the same
    paths: a string is the path of some row exactly when it is a key of the
    index; and the table has one row per change. *)
Theorem buildDiffTable_paths_are_keys (changes : list (Change float64)) :
  length (buildDiffTable Sprintf_v_value changes) = length changes
  /\ (forall p : string,
        (exists r, r ∈ buildDiffTable Sprintf_v_value changes /\ ResultPath r = p)
        <-> is_Some (buildDiffMap changes !! p)).
Proof.
  rewrite buildDiffTable_fmap. split; [apply length_fmap |].
  intros p. rewrite buildDiffMap_keys. split.
  - intros (r & Hr & Hp). apply list_elem_of_fmap in Hr as (c & -> & Hc).
    exists c. by split.
  - intros (c & Hc & Hp). eexists. split.
    + apply list_elem_of_fmap. exists c. split; [reflexivity | assumption].
    + exact Hp.
Qed.

(** X6: a row of the table whose path no later row repeats is looked up in
    the index under the class of its own type: "added" for create,
    "removed" for delete, "changed" for update, "unchanged" for any other
    type. *)
Theorem buildDiffTable_row_class (changes : list (Change float64))
    (i : nat) (r : DiffResult) :
  buildDiffTable Sprintf_v_value changes !! i = Some r ->
  (forall j r', (i < j)%nat ->
     buildDiffTable Sprintf_v_value changes !! j = Some r' ->
     ResultPath r' <> ResultPath r) ->
  (ResultType r = "create" ->
   getChangeType (buildDiffMap changes) (ResultPath r) = "added")
  /\ (ResultType r = "delete" ->
      getChangeType (buildDiffMap changes) (ResultPath r) = "removed")
  /\ (ResultType r = "update" ->
      getChangeType (buildDiffMap changes) (ResultPath r) = "changed")
  /\ (ResultType r <> "create" -> ResultType r <> "delete" ->
      ResultType r <> "update" ->
      getChangeType (buildDiffMap changes) (ResultPath r) = "unchanged").
Proof.
  rewrite buildDiffTable_fmap. intros Hi Hlater.
  rewrite list_lookup_fmap in Hi.
  destruct (changes !! i) as [c|] eqn:Hc; [| discriminate].
  injection Hi as <-. cbn [ResultPath ResultType] in *.
  assert (Hl : buildDiffMap changes !! Join (Path c) "." = Some (classOf (Type_ c))).
  { apply (buildDiffMap_last_write changes i c Hc). intros j c' Hij Hj.
    apply (Hlater j (mkDiffResult (Join (Path c') ".") (Type_ c')
                       (Sprintf_v_value (From c')) (Sprintf_v_value (To c'))) Hij).
    by rewrite list_lookup_fmap, Hj. }
  unfold getChangeType. rewrite Hl.
  repeat split.
  - by intros ->.
  - by intros ->.
  - by intros ->.
  - intros H1 H2 H3. by rewrite classOf_unknown.
Qed.
End TableFacts.

Lemma buildDiffTable_row_class_witness :
  getChangeType (buildDiffMap colliding_changes) "a.b" = "removed".
Proof.
  refine (proj1 (proj2 (buildDiffTable_row_class (fun _ => "")
                          colliding_changes 1
                          (mkDiffResult "a.b" "delete" "" "") eq_refl _)) eq_refl).
  intros j r' Hj Hr'. destruct j as [|[|j]]; [lia | lia | discriminate].
Defined.

(** ** Paths, continued *)

(** X7: the path the renderer builds for a sequence of segments is the
    joined path of the segments that remain once the leading empty ones are
    dropped; it is the joined path of the whole sequence as soon as the
    first segment is not empty. *)
Theorem renderPath_drop_empty (segs : list string) :
  renderPath segs = Join (drop_empty segs) "."
  /\ (head segs <> Some "" -> renderPath segs = Join segs ".").
Proof.
  split; [| apply renderPath_Join].
  induction segs as [|s segs IH]; [reflexivity |].
  cbn [drop_empty]. destruct (String.eqb_spec s "") as [-> | Hne].
  - rewrite renderPath_skips_empty. exact IH.
  - apply renderPath_Join. simpl. congruence.
Qed.

Lemma Sprintf_d_inj (i j : nat) : Sprintf_d i = Sprintf_d j -> i = j.
Proof.
  unfold Sprintf_d. intros H.
  apply (f_equal NilEmpty.uint_of_string) in H. rewrite !NilEmpty.usu in H.
  injection H as H. apply (f_equal Nat.of_uint) in H.
  by rewrite !Unsigned.of_to in H.
Qed.

Lemma pathKey_inj (base k1 k2 : string) :
  pathKey base k1 = pathKey base k2 -> k1 = k2.
Proof.
  rewrite !pathKey_unfold. destruct (decide (base = "")); [done |].
  intros H. apply (inj (String.append base)) in H.
  by apply (inj (String.append ".")) in H.
Qed.

(** X8: within one object or one array, two different children are never
    looked up at the same path: [pathKey] is injective in the key for every
    base, and the paths of two array positions are equal only for equal
    positions. *)
Theorem pathKey_siblings_distinct (base : string) :
  (forall k1 k2 : string, pathKey base k1 = pathKey base k2 -> k1 = k2)
  /\ (forall i j : nat,
        pathKey base (Sprintf_d i) = pathKey base (Sprintf_d j) -> i = j).
Proof.
  split.
  - apply pathKey_inj.
  - intros i j H. by apply Sprintf_d_inj, (pathKey_inj base).
Qed.

Lemma pathKey_dotted (base a b : string) :
  base <> "" \/ a <> "" ->
  pathKey (pathKey base a) b = pathKey base (a +:+ "." +:+ b).
Proof.
  intros H. rewrite !pathKey_unfold.
  destruct (decide (base = "")) as [-> | Hb].
  - destruct H as [H | Ha]; [done |]. by rewrite decide_False.
  - rewrite decide_False.
    + by rewrite !string_app_assoc.
    + destruct base; [done | discriminate].
Qed.

(** X9: a key with a dot in it is not told apart from nesting.  Below any
    node, the member [b] of a member with the non-empty key [a] is looked
    up at the same path as a direct member with the key [a.b]. *)
Theorem renderPath_dotted_key (segs : list string) (a b : string) :
  a <> "" ->
  renderPath (segs ++ [a; b]) = renderPath (segs ++ [a +:+ "." +:+ b]).
Proof.
  intros Ha. unfold renderPath. rewrite !fold_left_app. simpl.
  apply pathKey_dotted. by right.
Qed.

Lemma renderPath_dotted_key_witness :
  renderPath (["x"] ++ ["a"; "b"]) = renderPath (["x"] ++ ["a" +:+ "." +:+ "b"]).
Proof. apply renderPath_dotted_key. discriminate. Defined.

(** ** Escaping, continued *)

(** X10: [escapeHTML] works byte by byte: the escaped form of a
    concatenation is the concatenation of the escaped forms. *)
Theorem escapeHTML_app (a b : string) :
  escapeHTML (a +:+ b) = escapeHTML a +:+ escapeHTML b.
Proof.
  induction a as [|c a IH]; [reflexivity |].
  cbn [String.append]. rewrite !escapeHTML_cons, IH. by rewrite string_app_assoc.
Qed.

(** X11: [escapeHTML] loses nothing: two strings with the same escaped form
    are the same string. *)
Theorem escapeHTML_inj (s1 s2 : string) :
  escapeHTML s1 = escapeHTML s2 -> s1 = s2.
Proof.
  revert s2. induction s1 as [|a s1 IH]; intros [|b s2].
  - reflexivity.
  - rewrite escapeHTML_cons. intros H. exfalso.
    destruct (escape_byte_cases b)
      as [[_ He] | [[_ He] | [[_ He] | [[_ He] | [[_ He] | (_&_&_&_&_& He)]]]]];
      rewrite He in H; discriminate H.
  - rewrite escapeHTML_cons. intros H. exfalso.
    destruct (escape_byte_cases a)
      as [[_ He] | [[_ He] | [[_ He] | [[_ He] | [[_ He] | (_&_&_&_&_& He)]]]]];
      rewrite He in H; discriminate H.
  - rewrite !escapeHTML_cons. intros H.
    destruct (escape_byte_cases a)
      as [[-> Ha] | [[-> Ha] | [[-> Ha] | [[-> Ha] | [[-> Ha] | (?&?&?&?&?& Ha)]]]]];
      destruct (escape_byte_cases b)
        as [[-> Hb] | [[-> Hb] | [[-> Hb] | [[-> Hb] | [[-> Hb] | (?&?&?&?&?& Hb)]]]]];
      rewrite ?Ha, ?Hb in H; cbn [String.append] in H;
      try discriminate H;
      try (injection H as H; f_equal; by apply IH);
      try (injection H as E H; congruence).
    injection H as -> H. f_equal. by apply IH.
Qed.

Lemma escape_byte_size (c : ascii) :
  (special c = true
   /\ (4 <= String.length (escape_byte c) <= 6)%nat
   /\ String.get 0 (escape_byte c) = Some "&"%char)
  \/ (special c = false /\ escape_byte c = String c EmptyString).
Proof.
  destruct c as [[] [] [] [] [] [] [] []]; vm_compute;
    first [ right; split; reflexivity
          | left; split; [reflexivity | split; [lia | reflexivity]] ].
Qed.

Lemma escapeHTML_length_bounds (s : string) :
  (String.length s + 3 * count_special s
   <= String.length (escapeHTML s)
   <= String.length s + 5 * count_special s)%nat.
Proof.
  induction s as [|c s IH]; [simpl; lia |].
  rewrite escapeHTML_cons, string_length_app. cbn [String.length count_special].
  destruct (escape_byte_size c) as [(-> & Hc & _) | (-> & ->)]; simpl; lia.
Qed.

Lemma escapeHTML_fixed (s : string) :
  escapeHTML s = s <-> count_special s = 0%nat.
Proof.
  split.
  - intros E. pose proof (escapeHTML_length_bounds s) as Hlen.
    rewrite E in Hlen. lia.
  - induction s as [|c s IH]; [reflexivity |].
    cbn [count_special]. rewrite escapeHTML_cons.
    destruct (escape_byte_size c) as [(-> & _ & _) | (-> & ->)]; [lia |].
    intros H. simpl. f_equal. apply IH. simpl in H. lia.
Qed.

(** X12: escaping never shortens a string: each replaced byte adds between
    three and five bytes and every other byte is copied, so the escaped form
    is the string itself exactly when it has no byte to replace. *)
Theorem escapeHTML_length (s : string) :
  (String.length s + 3 * count_special s <= String.length (escapeHTML s))%nat
  /\ (String.length (escapeHTML s) <= String.length s + 5 * count_special s)%nat
  /\ (escapeHTML s = s <-> count_special s = 0%nat).
Proof.
  pose proof (escapeHTML_length_bounds s).
  split; [lia | split; [lia | apply escapeHTML_fixed]].
Qed.

(** Every replaced byte leaves an & in the escaped form. *)
Lemma count_special_escapeHTML (s : string) :
  (count_special s <= count_special (escapeHTML s))%nat.
Proof.
  induction s as [|c s IH]; [simpl; lia |].
  rewrite escapeHTML_cons. cbn [count_special].
  destruct (escape_byte_size c) as [(-> & Hlen & Hamp) | (Hs & ->)].
  - destruct (escape_byte c) as [|x e]; [discriminate Hamp |].
    simpl in Hamp. injection Hamp as ->.
    cbn [String.append count_special].
    assert (forall e t, (count_special t <= count_special (e +:+ t))%nat) as Happ.
    { clear. induction e as [|y e IHe]; intros t; simpl; [lia |].
      specialize (IHe t). lia. }
    specialize (Happ e (escapeHTML s)).
    change (special "&") with true. cbn iota. lia.
  - cbn [String.append count_special]. rewrite Hs. lia.
Qed.

(** X13: escaping is not idempotent: escaping an escaped string changes it
    again unless the original string had no byte to replace. *)
Theorem escapeHTML_twice (s : string) :
  escapeHTML (escapeHTML s) = escapeHTML s <-> count_special s = 0%nat.
Proof.
  split.
  - intros H. apply escapeHTML_fixed in H.
    pose proof (count_special_escapeHTML s). lia.
  - intros H. apply escapeHTML_fixed in H. by rewrite !H.
Qed.

(** ** The renderer and the index *)

Section Frame.
Context {float64 : Type}.
Variable Sprintf_v : float64 -> string.

Lemma renderJSON_frame_below (n : nat) :
  forall (v : JsonValue float64) (path : string) (dm1 dm2 : DiffMap),
    (height v < n)%nat ->
    (forall segs node, segs <> [] -> reach v segs node ->
       getChangeType dm1 (fold_left pathKey segs path)
       = getChangeType dm2 (fold_left pathKey segs path)) ->
    renderJSON Sprintf_v v path dm1 = renderJSON Sprintf_v v path dm2.
Proof.
  induction n as [|n IH]; intros v path dm1 dm2 Hn Hsame; [lia |].
  destruct v as [| b | f | s | l | m]; try reflexivity.
  - rewrite !renderJSON_array. f_equal. f_equal. f_equal.
    apply imap_ext. intros i vv Hvv. unfold element_item.
    assert (Hcls : getChangeType dm1 (pathKey path (Sprintf_d i))
                   = getChangeType dm2 (pathKey path (Sprintf_d i))).
    { apply (Hsame [Sprintf_d i] vv); [discriminate |].
      eapply reach_element; [exact Hvv | apply reach_here]. }
    rewrite Hcls.
    rewrite (IH vv (pathKey path (Sprintf_d i)) dm1 dm2); [reflexivity | |].
    + pose proof (height_element _ _ _ Hvv). lia.
    + intros segs node Hne Hreach.
      apply (Hsame (Sprintf_d i :: segs) node); [discriminate |].
      by eapply reach_element.
  - rewrite !renderJSON_object. f_equal. f_equal. f_equal.
    apply imap_ext. intros i k Hk. unfold member_item.
    apply list_elem_of_lookup_2, elem_of_sortedKeys in Hk as [c Hc].
    rewrite Hc. simpl default.
    assert (Hcls : getChangeType dm1 (pathKey path k)
                   = getChangeType dm2 (pathKey path k)).
    { apply (Hsame [k] c); [discriminate |].
      eapply reach_member; [exact Hc | apply reach_here]. }
    rewrite Hcls.
    rewrite (IH c (pathKey path k) dm1 dm2); [reflexivity | |].
    + pose proof (height_member _ _ _ Hc). lia.
    + intros segs node Hne Hreach.
      apply (Hsame (k :: segs) node); [discriminate |].
      by eapply reach_member.
Qed.

(** X14: the markup depends on the index only through the lookups at the
    paths of the nodes below the root: two indexes that answer the same
    class at each of these paths give the same markup, whatever else they
    hold. *)
Theorem renderJSON_frame (v : JsonValue float64) (path : string)
    (dm1 dm2 : DiffMap) :
  (forall segs node, segs <> [] -> reach v segs node ->
     getChangeType dm1 (fold_left pathKey segs path)
     = getChangeType dm2 (fold_left pathKey segs path)) ->
  renderJSON Sprintf_v v path dm1 = renderJSON Sprintf_v v path dm2.
Proof. apply (renderJSON_frame_below (S (height v))). lia. Qed.

Lemma getChangeType_filter_Unchanged (dm : DiffMap) (p : string) :
  getChangeType (filter (fun kv => snd kv <> Unchanged) dm) p = getChangeType dm p.
Proof.
  unfold getChangeType.
  destruct (dm !! p) as [v|] eqn:E.
  - destruct (decide (v = Unchanged)) as [-> | Hv].
    + rewrite (proj2 (map_lookup_filter_None _ dm p)); [reflexivity |].
      right. intros x Hx. rewrite E in Hx. injection Hx as <-. simpl. tauto.
    + by rewrite (map_lookup_filter_Some_2 _ dm p v E).
  - rewrite (proj2 (map_lookup_filter_None _ dm p)); [reflexivity |]. by left.
Qed.

(** X15: the entries of the index whose value is [Unchanged] do not show in
    the markup: removing them from the index leaves every markup as it
    was. *)
Theorem renderJSON_ignores_Unchanged_entries (v : JsonValue float64)
    (path : string) (dm : DiffMap) :
  renderJSON Sprintf_v v path (filter (fun kv => snd kv <> Unchanged) dm)
  = renderJSON Sprintf_v v path dm.
Proof.
  apply (renderJSON_frame_below (S (height v))); [lia |].
  intros segs node _ _. apply getChangeType_filter_Unchanged.
Qed.
End Frame.

Lemma renderJSON_frame_witness :
  renderJSON Sprintf_v_int one_member "" unrelated_index
  = renderJSON Sprintf_v_int one_member "" ∅.
Proof.
  apply renderJSON_frame. intros segs node Hne Hreach.
  inversion Hreach as [| m k c segs' n' Hc Hrest |]; subst; [done |].
  cbn [map_get] in Hc.
  destruct (String.eqb_spec "k" k) as [<- | Hk]; [| discriminate].
  injection Hc as <-. inversion Hrest; subst. reflexivity.
Defined.

(** ** Sorting before rendering *)

Lemma map_keys_set {V : Type} (m : list (string * V)) k v :
  map_keys (map_set m k v)
  = if decide (k ∈ map_keys m) then map_keys m else map_keys m ++ [k].
Proof.
  unfold map_keys. induction m as [|[k' v'] m IH]; cbn [map_set map fst app].
  - rewrite decide_False by (intros H; inversion H). reflexivity.
  - destruct (String.eqb_spec k' k) as [-> | Hne]; cbn [map fst].
    + rewrite decide_True by apply list_elem_of_here. reflexivity.
    + rewrite IH. destruct (decide (k ∈ map fst m)) as [Hin | Hnin].
      * rewrite decide_True by (by apply list_elem_of_further). reflexivity.
      * rewrite decide_False; [reflexivity |].
        intros H. apply elem_of_cons in H as [-> | H]; contradiction.
Qed.

Lemma map_set_NoDup {V : Type} (m : list (string * V)) k v :
  NoDup (map_keys m) -> NoDup (map_keys (map_set m k v)).
Proof.
  intros Hnd. rewrite map_keys_set. destruct (decide (k ∈ map_keys m)); [assumption |].
  apply NoDup_app. split; [assumption |]. split.
  - intros x Hx Hk. apply list_elem_of_singleton in Hk. by subst.
  - apply NoDup_singleton.
Qed.

Lemma map_set_Forall {V : Type} (P : V -> Prop) (m : list (string * V)) k v :
  Forall (fun e => P (snd e)) m -> P v ->
  Forall (fun e => P (snd e)) (map_set m k v).
Proof.
  intros Hm Hv. induction Hm as [|[k' v'] m Hv' Hm IH]; cbn [map_set].
  - by constructor.
  - destruct (String.eqb k' k); constructor; assumption.
Qed.

(** The map filled by [sortJSON] has no key twice, at any depth. *)
Lemma sortJSON_unique_keys_below {float64 : Type} (n : nat) :
  forall v : JsonValue float64, (height v < n)%nat -> unique_keys (sortJSON v) = true.
Proof.
  induction n as [|n IH]; intros v Hn; [lia |].
  destruct v as [| b | f | s | l | m]; try reflexivity.
  - rewrite sortJSON_array. cbn [unique_keys].
    apply forallb_forall. intros c Hc.
    apply in_map_iff in Hc as (c' & <- & Hc').
    apply list_elem_of_In, list_elem_of_lookup in Hc' as [i Hi].
    apply IH. pose proof (height_element _ _ _ Hi). lia.
  - rewrite sortJSON_object. cbn [unique_keys].
    assert (Hinv : forall (keys : list string) (init : list (string * JsonValue float64)),
               (forall k, k ∈ keys ->
                  unique_keys (sortJSON (default JNull (map_get m k))) = true) ->
               NoDup (map_keys init) ->
               Forall (fun e => unique_keys (snd e) = true) init ->
               let sorted :=
                 fold_left
                   (fun sorted k =>
                      map_set sorted k (sortJSON (default JNull (map_get m k))))
                   keys init in
               NoDup (map_keys sorted)
               /\ Forall (fun e => unique_keys (snd e) = true) sorted).
    { induction keys as [|k keys IHk]; intros init Hk Hnd Hall; cbn; [done |].
      apply IHk.
      - intros k' Hk'. apply Hk. by apply list_elem_of_further.
      - by apply map_set_NoDup.
      - apply (map_set_Forall (fun x => unique_keys x = true)); [assumption |].
        apply Hk, list_elem_of_here. }
    destruct (Hinv (sortedKeys m) []) as [Hnd Hall].
    + intros k Hk. apply elem_of_sortedKeys in Hk as [c Hc]. rewrite Hc. simpl default.
      apply IH. pose proof (height_member _ _ _ Hc). lia.
    + apply NoDup_nil_2.
    + constructor.
    + apply andb_true_intro. split.
      * by apply bool_decide_eq_true_2.
      * apply forallb_forall. intros e He.
        rewrite Forall_forall in Hall. by apply Hall, list_elem_of_In.
Qed.

(** X16: sorting a document before rendering it does not change the
    markup: [renderJSON] on the value [sortJSON] answers gives what it
    gives on the value itself. *)
Theorem renderJSON_sortJSON {float64 : Type} (Sprintf_v : float64 -> string)
    (v : JsonValue float64) (path : string) (diffMap : DiffMap) :
  unique_keys v = true ->
  renderJSON Sprintf_v (sortJSON v) path diffMap
  = renderJSON Sprintf_v v path diffMap.
Proof.
  intros Hv.
  apply (renderJSON_same_json Sprintf_v (S (height (sortJSON v)))).
  - lia.
  - apply (sortJSON_unique_keys_below (S (height v))). lia.
  - assumption.
  - apply (sortJSON_same_json_below (S (height v))). lia.
Qed.

Lemma renderJSON_sortJSON_witness :
  renderJSON Sprintf_v_int (sortJSON listing_one) "" (buildDiffMap colliding_changes)
  = renderJSON Sprintf_v_int listing_one "" (buildDiffMap colliding_changes).
Proof. apply renderJSON_sortJSON. vm_compute. reflexivity. Defined.

(** ** Sorted keys, continued *)

(** X17: [sortedKeys] does not depend on the order in which the loop over
    the map visits the keys: two visits of the same keys in different
    orders give the same list. *)
Theorem sortedKeys_visit_order_independent {V W : Type}
    (m1 : list (string * V)) (m2 : list (string * W)) :
  map_keys m1 ≡ₚ map_keys m2 -> sortedKeys m1 = sortedKeys m2.
Proof.
  intros Hperm.
  apply (Sorted_unique String.le); try apply sortedKeys_Sorted.
  by rewrite !sortedKeys_Permutation.
Qed.

Lemma sortedKeys_visit_order_independent_witness :
  sortedKeys [("b", 1%nat); ("a", 2%nat)] = sortedKeys [("a", true); ("b", false)].
Proof. apply sortedKeys_visit_order_independent. apply perm_swap. Defined.

(** ** From a change to its highlight *)

(** X18: a change is shown where it was found.  Take a change of type
    create, delete or update whose path does not start with an empty
    segment and whose dotted path no later change shares, and a document in
    which the path of the change leads to a member of an object.  Then the
    markup of the document, rendered from the empty path with the index
    built from the changes, holds the item of that member with the class of
    the change: added, removed or changed. *)
Theorem changed_member_highlighted {float64 : Type}
    (Sprintf_v : float64 -> string)
    (changes : list (Change float64)) (i : nat) (c : Change float64)
    (v : JsonValue float64) (segs : list string) (k : string)
    (m : list (string * JsonValue float64)) (child : JsonValue float64)
    (cls : string) :
  changes !! i = Some c ->
  (forall j c', (i < j)%nat -> changes !! j = Some c' ->
                Join (Path c') "." <> Join (Path c) ".") ->
  Path c = segs ++ [k] ->
  head (Path c) <> Some "" ->
  reach v segs (JObject m) ->
  map_get m k = Some child ->
  (Type_ c = "create" /\ cls = "added")
  \/ (Type_ c = "delete" /\ cls = "removed")
  \/ (Type_ c = "update" /\ cls = "changed") ->
  within (li_open cls
          +:+ key_span k
          +:+ renderJSON Sprintf_v child (Join (Path c) ".") (buildDiffMap changes))
         (renderJSON Sprintf_v v "" (buildDiffMap changes)).
Proof.
  intros Hi Hlater Hpath Hhead Hreach Hchild Hcls.
  assert (Hlookup : getChangeType (buildDiffMap changes) (Join (Path c) ".") = cls).
  { unfold getChangeType. rewrite (buildDiffMap_last_write changes i c Hi Hlater).
    destruct Hcls as [[-> ->] | [[-> ->] | [-> ->]]]; reflexivity. }
  rewrite <- (renderPath_Join (Path c) Hhead) in *.
  rewrite Hpath in *. unfold renderPath in *. rewrite fold_left_app in *.
  cbn [fold_left] in *. rewrite <- Hlookup.
  eapply within_trans; [| apply (reach_within Sprintf_v _ _ _ Hreach)].
  by apply member_within.
Qed.

Lemma changed_member_highlighted_witness :
  within (li_open "changed"
          +:+ key_span "b"
          +:+ renderJSON Sprintf_v_int (JNumber 1) "a.b" (buildDiffMap nested_update))
         (renderJSON Sprintf_v_int nested_document "" (buildDiffMap nested_update)).
Proof.
  refine (changed_member_highlighted Sprintf_v_int nested_update 0
            (mkChange "update" ["a"; "b"] (JNumber 1%Z) (JNumber 2%Z))
            nested_document ["a"] "b" [("b", JNumber 1%Z)] (JNumber 1%Z) "changed"
            eq_refl _ eq_refl _ _ eq_refl _).
  - intros j c' Hj Hc'. destruct j; [lia | discriminate].
  - discriminate.
  - eapply reach_member; [reflexivity | apply reach_here].
  - right. right. split; reflexivity.
Defined.

(** X19: the same for an element of an array: when the path of the change
    leads to the position [idx] of an array of the document, its last
    segment being the decimal digits of [idx], the markup holds the item of
    that element with the class of the change. *)
Theorem changed_element_highlighted {float64 : Type}
    (Sprintf_v : float64 -> string)
    (changes : list (Change float64)) (i : nat) (c : Change float64)
    (v : JsonValue float64) (segs : list string) (idx : nat)
    (l : list (JsonValue float64)) (child : JsonValue float64)
    (cls : string) :
  changes !! i = Some c ->
  (forall j c', (i < j)%nat -> changes !! j = Some c' ->
                Join (Path c') "." <> Join (Path c) ".") ->
  Path c = segs ++ [Sprintf_d idx] ->
  head (Path c) <> Some "" ->
  reach v segs (JArray l) ->
  l !! idx = Some child ->
  (Type_ c = "create" /\ cls = "added")
  \/ (Type_ c = "delete" /\ cls = "removed")
  \/ (Type_ c = "update" /\ cls = "changed") ->
  within (li_open cls
          +:+ renderJSON Sprintf_v child (Join (Path c) ".") (buildDiffMap changes))
         (renderJSON Sprintf_v v "" (buildDiffMap changes)).
Proof.
  intros Hi Hlater Hpath Hhead Hreach Hchild Hcls.
  assert (Hlookup : getChangeType (buildDiffMap changes) (Join (Path c) ".") = cls).
  { unfold getChangeType. rewrite (buildDiffMap_last_write changes i c Hi Hlater).
    destruct Hcls as [[-> ->] | [[-> ->] | [-> ->]]]; reflexivity. }
  rewrite <- (renderPath_Join (Path c) Hhead) in *.
  rewrite Hpath in *. unfold renderPath in *. rewrite fold_left_app in *.
  cbn [fold_left] in *. rewrite <- Hlookup.
  eapply within_trans; [| apply (reach_within Sprintf_v _ _ _ Hreach)].
  by apply element_within.
Qed.

Lemma changed_element_highlighted_witness :
  within (li_open "removed"
          +:+ renderJSON Sprintf_v_int (JNumber 7) "xs.1" (buildDiffMap element_removal))
         (renderJSON Sprintf_v_int array_document "" (buildDiffMap element_removal)).
Proof.
  refine (changed_element_highlighted Sprintf_v_int element_removal 0
            (mkChange "delete" ["xs"; "1"] (JNumber 7%Z) JNull)
            array_document ["xs"] 1 [JNumber 5%Z; JNumber 7%Z] (JNumber 7%Z) "removed"
            eq_refl _ eq_refl _ _ eq_refl _).
  - intros j c' Hj Hc'. destruct j; [lia | discriminate].
  - discriminate.
  - eapply reach_member; [reflexivity | apply reach_here].
  - right. left. split; reflexivity.
Defined.

Lemma escapeHTML_inj_witness : "a<b" = "a<b".
Proof. apply escapeHTML_inj. reflexivity. Defined.
